(** * closest-airbnb-finder: choosing the best neighborhood

    A shallow embedding of [pkg/api/neighborhood.go]: the frequency table,
    the heap it is pushed into, the loop that pops the names tying for the
    highest occurrence, the construction of the distance graph with its
    cache, and the search for the node with the least distance sum. *)

From Stdlib Require Import ZArith String Ascii PrimFloat FloatOps FloatAxioms SpecFloat.
From stdpp Require Import base option list sorting strings gmap fin_maps.

Local Open Scope Z_scope.
Local Open Scope string_scope.

(** ** Data *)

(** Go's [float64] is a binary64 float: [0.0], [+Inf], [+] and [<] are the
    primitive operations on [float]. *)
Abbreviation float64 := PrimFloat.float (only parsing).

(** [type Neighborhood struct] *)
Record Neighborhood := mkNeighborhood {
  Name : string;
  City : string;
  StateOrProvinceName : string;
  Country : string;
  Latitude : float64;
  Longitude : float64
}.

(** [Neighborhood{}], the zero value. *)
Definition zeroNeighborhood : Neighborhood :=
  mkNeighborhood "" "" "" "" PrimFloat.zero PrimFloat.zero.

(** Go's [error] values that can flow through these functions: the
    package's own [NoNeighborhoodFoundError] and whatever [row.Scan]
    reports when the distance query fails. *)
Inductive error :=
  | NoNeighborhoodFoundError (message : string)
  | ScanError.

(** A call either returns or stops the goroutine with a runtime panic. *)
Inductive outcome (A : Type) :=
  | Returned (a : A)
  | Panicked (reason : string).
Arguments Returned {A} a.
Arguments Panicked {A} reason.

(** [int] is 64 bits wide; [++] wraps around. *)
Definition int_wrap (z : Z) : Z := (z + 2 ^ 63) mod 2 ^ 64 - 2 ^ 63.

(** ** Ranging over a map

    The order in which [for k, v := range m] visits the entries of a map is
    chosen by the Go runtime and differs from run to run.  A [MapRange] is
    one such choice: for every map an enumeration of exactly its entries. *)
Record MapRange := mkMapRange {
  range_order : ∀ V : Type, gmap string V → list (string * V);
  range_order_perm : ∀ (V : Type) (m : gmap string V),
    range_order V m ≡ₚ map_to_list m
}.
Arguments range_order _ {V} m.

(** ** The frequency table and the heap *)

(** [type neighorboodNameFrequency struct] *)
Record neighorboodNameFrequency := mkFrequency {
  name : string;
  count : Z
}.

(** [type neighborhoodNameFrequencyMinHeap []neighorboodNameFrequency] *)
Abbreviation neighborhoodNameFrequencyMinHeap :=
  (list neighorboodNameFrequency) (only parsing).

(** Indexing a slice: out of range is a runtime panic. *)
Definition at_index {A} (l : list A) (i : nat) : outcome A :=
  match l !! i with
  | Some x => Returned x
  | None => Panicked "index out of range"
  end.

Global Instance outcome_ret : MRet outcome := λ A a, Returned a.
Global Instance outcome_bind : MBind outcome := λ A B f o,
  match o with
  | Returned a => f a
  | Panicked reason => Panicked reason
  end.

(** [Less]: [h[i].count < h[j].count]. *)
Definition Less (h : neighborhoodNameFrequencyMinHeap) (i j : nat) : outcome bool :=
  x ← at_index h i; y ← at_index h j; mret (bool_decide (count x < count y)).

(** [Swap]: [h[i], h[j] = h[j], h[i]]. *)
Definition Swap (h : neighborhoodNameFrequencyMinHeap) (i j : nat)
  : outcome neighborhoodNameFrequencyMinHeap :=
  x ← at_index h i; y ← at_index h j; mret (<[j := x]> (<[i := y]> h)).

(** [Len] *)
Definition Len (h : neighborhoodNameFrequencyMinHeap) : nat := length h.

(** [Push]: [*h = append( *h, x)]. *)
Definition Push (h : neighborhoodNameFrequencyMinHeap) (x : neighorboodNameFrequency)
  : neighborhoodNameFrequencyMinHeap := h ++ [x].

(** [Pop]: the method of the slice type. It removes and returns the LAST
    element of the slice ([x := old[n-1]; *h = old[0 : n-1]]); on an empty
    slice the index [-1] panics. *)
Definition Pop (h : neighborhoodNameFrequencyMinHeap)
  : outcome (neighorboodNameFrequency * neighborhoodNameFrequencyMinHeap) :=
  let n := length h in
  if decide (n = 0%nat) then Panicked "index out of range"
  else x ← at_index h (n - 1); mret (x, take (n - 1) h).

(** [container/heap]'s [up], the loop
    [for { i := (j - 1) / 2; if i == j || !h.Less(j, i) { break }; h.Swap(i, j); j = i }].
    Go's division truncates towards zero, so at [j = 0] the parent index is
    [0], as with the truncated subtraction of [nat].  Every round but the
    last makes [j] smaller, so [S j] rounds are enough. *)
Fixpoint up (fuel : nat) (h : neighborhoodNameFrequencyMinHeap) (j : nat)
  : outcome neighborhoodNameFrequencyMinHeap :=
  match fuel with
  | O => mret h
  | S fuel' =>
      let i := ((j - 1) / 2)%nat in
      if decide (i = j) then mret h
      else
        lt ← Less h j i;
        if negb lt then mret h
        else h' ← Swap h i j; up fuel' h' i
  end.

(** [heap.Push(h, x)]: [h.Push(x); up(h, h.Len()-1)]. *)
Definition heap_Push (h : neighborhoodNameFrequencyMinHeap) (x : neighorboodNameFrequency)
  : outcome neighborhoodNameFrequencyMinHeap :=
  let h' := Push h x in
  up (Len h') h' (Len h' - 1).

(** The frequency table of [findNeighborhoodWithHighestOccurrence]: one
    round of [for _, neighborhood := range neighborhoods]. *)
Definition countNeighborhood (neighborhoodFrequency : gmap string Z)
  (neighborhood : Neighborhood) : gmap string Z :=
  match neighborhoodFrequency !! Name neighborhood with
  | Some c => <[Name neighborhood := int_wrap (c + 1)]> neighborhoodFrequency
  | None => <[Name neighborhood := 1]> neighborhoodFrequency
  end.

Definition frequencyTable (neighborhoods : list Neighborhood) : gmap string Z :=
  foldl countNeighborhood ∅ neighborhoods.

(** [getMaxHeap]: [heap.Init] on the empty heap does nothing; every entry of
    the map is pushed, in the order the runtime ranges over the map. *)
Definition pushAll (h : neighborhoodNameFrequencyMinHeap)
  (entries : list (string * Z)) : outcome neighborhoodNameFrequencyMinHeap :=
  foldl (λ acc kv, h ← acc; heap_Push h (mkFrequency kv.1 kv.2)) (mret h) entries.

Definition getMaxHeap (R : MapRange) (m : gmap string Z)
  : outcome neighborhoodNameFrequencyMinHeap :=
  pushAll [] (range_order R m).

(** The loop of [findNeighborhoodsWithSameFrequency],
    [for i := 0; i < h.Len(); i++ { v := h.Pop(); if v.count < maxCount { break } else { ... } }].
    Every round pops one element, so [Len h] rounds are enough. *)
Fixpoint sameFrequencyLoop (fuel : nat) (i : nat) (h : neighborhoodNameFrequencyMinHeap)
  (maxCount : Z) (neighborhoodNames : list string) : outcome (list string) :=
  match fuel with
  | O => mret neighborhoodNames
  | S fuel' =>
      if decide (i < Len h)%nat then
        '(v, h') ← Pop h;
        if decide (count v < maxCount) then mret neighborhoodNames
        else sameFrequencyLoop fuel' (S i) h' (count v) (neighborhoodNames ++ [name v])
      else mret neighborhoodNames
  end.

(** [findNeighborhoodsWithSameFrequency] *)
Definition findNeighborhoodsWithSameFrequency (h : neighborhoodNameFrequencyMinHeap)
  : outcome (list string * option error) :=
  if decide (Len h = 0%nat) then mret ([], None)
  else if decide (Len h = 1%nat) then
    '(v, _) ← Pop h; mret ([name v], None)
  else
    neighborhoodNames ← sameFrequencyLoop (Len h) 0 h 0 [];
    mret (neighborhoodNames, None).

(** [findNeighborhoodWithHighestOccurrence] (the calls of [log.Printf] are
    left out) *)
Definition findNeighborhoodWithHighestOccurrence (R : MapRange)
  (neighborhoods : list Neighborhood) : outcome (list string * option error) :=
  let neighborhoodFrequency := frequencyTable neighborhoods in
  h ← getMaxHeap R neighborhoodFrequency;
  '(neighborhoodNames, err) ← findNeighborhoodsWithSameFrequency h;
  match err with
  | Some e => mret ([], Some e)
  | None => mret (neighborhoodNames, None)
  end.

(** ** The distance provider and the cache key *)

(** The query [SELECT ST_Distance_Sphere(...)] runs in PostGIS. A
    [DistanceQuery] gives, for the four numbers bound to [$1..$4], the
    distance that [row.Scan] reads, or [None] when the scan reports an
    error. *)
Definition DistanceQuery := float64 → float64 → float64 → float64 → option float64.

(** [getDistanceBetweenTwoCoordinates] *)
Definition getDistanceBetweenTwoCoordinates (db : DistanceQuery)
  (point1 point2 : list float64) : outcome (float64 * option error) :=
  x1 ← at_index point1 0; y1 ← at_index point1 1;
  x2 ← at_index point2 0; y2 ← at_index point2 1;
  match db x1 y1 x2 y2 with
  | None => mret (PrimFloat.zero, Some ScanError)
  | Some distanceInMeters => mret (distanceInMeters, None)
  end.

(** [sort.Strings]: increasing order by [<] on strings (byte-wise
    lexicographic); on a short slice the library sorts by insertion. An
    element is placed before the first element of the sorted prefix that
    it is less than, which is where the library's walk from the right
    leaves it. *)
Fixpoint insertString (x : string) (sorted : list string) : list string :=
  match sorted with
  | [] => [x]
  | y :: rest => if String.ltb x y then x :: y :: rest else y :: insertString x rest
  end.

Definition sort_Strings (data : list string) : list string :=
  foldl (λ sorted x, insertString x sorted) [] data.

(** ** MD5 (RFC 1321) and its hexadecimal form *)
Module MD5.

Local Close Scope string_scope.

Definition mask32 (x : Z) : Z := x mod 2 ^ 32.

Definition rotl (x c : Z) : Z :=
  Z.lor (mask32 (Z.shiftl x c)) (Z.shiftr x (32 - c)).

Definition not32 (x : Z) : Z := Z.lxor x 0xffffffff.

(** [K[i] = floor(2^32 * abs(sin(i + 1)))] *)
Definition K : list Z :=
  [0xd76aa478; 0xe8c7b756; 0x242070db; 0xc1bdceee;
   0xf57c0faf; 0x4787c62a; 0xa8304613; 0xfd469501;
   0x698098d8; 0x8b44f7af; 0xffff5bb1; 0x895cd7be;
   0x6b901122; 0xfd987193; 0xa679438e; 0x49b40821;
   0xf61e2562; 0xc040b340; 0x265e5a51; 0xe9b6c7aa;
   0xd62f105d; 0x02441453; 0xd8a1e681; 0xe7d3fbc8;
   0x21e1cde6; 0xc33707d6; 0xf4d50d87; 0x455a14ed;
   0xa9e3e905; 0xfcefa3f8; 0x676f02d9; 0x8d2a4c8a;
   0xfffa3942; 0x8771f681; 0x6d9d6122; 0xfde5380c;
   0xa4beea44; 0x4bdecfa9; 0xf6bb4b60; 0xbebfbc70;
   0x289b7ec6; 0xeaa127fa; 0xd4ef3085; 0x04881d05;
   0xd9d4d039; 0xe6db99e5; 0x1fa27cf8; 0xc4ac5665;
   0xf4292244; 0x432aff97; 0xab9423a7; 0xfc93a039;
   0x655b59c3; 0x8f0ccc92; 0xffeff47d; 0x85845dd1;
   0x6fa87e4f; 0xfe2ce6e0; 0xa3014314; 0x4e0811a1;
   0xf7537e82; 0xbd3af235; 0x2ad7d2bb; 0xeb86d391].

Definition shifts : list Z :=
  [7; 12; 17; 22; 7; 12; 17; 22; 7; 12; 17; 22; 7; 12; 17; 22;
   5; 9; 14; 20; 5; 9; 14; 20; 5; 9; 14; 20; 5; 9; 14; 20;
   4; 11; 16; 23; 4; 11; 16; 23; 4; 11; 16; 23; 4; 11; 16; 23;
   6; 10; 15; 21; 6; 10; 15; 21; 6; 10; 15; 21; 6; 10; 15; 21].

Definition state : Type := Z * Z * Z * Z.

(** Operation [i] of the 64 that mix one block [M] of sixteen words. *)
Definition step (M : list Z) (st : state) (i : Z) : state :=
  let '(a, b, c, d) := st in
  let '(f, g) :=
    if i <? 16 then (Z.lor (Z.land b c) (Z.land (not32 b) d), i)
    else if i <? 32 then (Z.lor (Z.land d b) (Z.land (not32 d) c), (5 * i + 1) mod 16)
    else if i <? 48 then (Z.lxor (Z.lxor b c) d, (3 * i + 5) mod 16)
    else (Z.lxor c (Z.lor b (not32 d)), (7 * i) mod 16) in
  let f' := mask32 (f + a + nth (Z.to_nat i) K 0 + nth (Z.to_nat g) M 0) in
  (d, mask32 (b + rotl f' (nth (Z.to_nat i) shifts 0)), b, c).

Definition block (st : state) (M : list Z) : state :=
  let '(a0, b0, c0, d0) := st in
  let '(a, b, c, d) := fold_left (step M) (map Z.of_nat (seq 0 64)) st in
  (mask32 (a0 + a), mask32 (b0 + b), mask32 (c0 + c), mask32 (d0 + d)).

(** The low [n] bytes of [x], least significant first. *)
Fixpoint le_bytes (n : nat) (x : Z) : list Z :=
  match n with
  | O => []
  | S n' => x mod 256 :: le_bytes n' (x / 256)
  end.

Definition pad (msg : list Z) : list Z :=
  let len := Z.of_nat (length msg) in
  (msg ++ [0x80] ++ repeat 0 (Z.to_nat ((55 - len) mod 64)) ++ le_bytes 8 (8 * len))%list.

(** Little-endian words of four bytes each. *)
Fixpoint words (n : nat) (bytes : list Z) : list Z :=
  match n, bytes with
  | S n', b0 :: b1 :: b2 :: b3 :: rest =>
      (b0 + 256 * (b1 + 256 * (b2 + 256 * b3))) :: words n' rest
  | _, _ => []
  end.

(** Blocks of sixteen words each. *)
Fixpoint blocks (n : nat) (ws : list Z) : list (list Z) :=
  match n, ws with
  | S n', _ :: _ => firstn 16 ws :: blocks n' (skipn 16 ws)
  | _, _ => []
  end.

Definition digest (msg : list Z) : list Z :=
  let ws := words (length (pad msg)) (pad msg) in
  let '(a, b, c, d) :=
    fold_left block (blocks (length ws) ws)
              (0x67452301, 0xefcdab89, 0x98badcfe, 0x10325476) in
  (le_bytes 4 a ++ le_bytes 4 b ++ le_bytes 4 c ++ le_bytes 4 d)%list.

Definition hexdigit (x : Z) : ascii :=
  nth (Z.to_nat x) (list_ascii_of_string "0123456789abcdef"%string) "0"%char.

(** [hex.EncodeToString] *)
Fixpoint EncodeToString (bytes : list Z) : string :=
  match bytes with
  | [] => EmptyString
  | b :: rest =>
      String (hexdigit (b / 16)) (String (hexdigit (b mod 16)) (EncodeToString rest))
  end.

Definition bytes_of (s : string) : list Z :=
  map (λ c, Z.of_N (N_of_ascii c)) (list_ascii_of_string s).

End MD5.

(** [hex.EncodeToString(hasher.Sum(nil))] after [hasher.Write([]byte(s))] *)
Definition md5_hex (s : string) : string :=
  MD5.EncodeToString (MD5.digest (MD5.bytes_of s)).

(** [generateNeighborhoodCacheKey] *)
Definition generateNeighborhoodCacheKey
  (neighborhoodName otherNeighborhoodName : string) : string :=
  let cacheKeyElements := sort_Strings [neighborhoodName; otherNeighborhoodName] in
  let cacheKey := String.concat "" cacheKeyElements in
  let hashedString := md5_hex cacheKey in
  hashedString.

(** ** Calls of the provider

    The only effect that outlives a panic is that the provider was called.
    A [World] lists those calls in order; each entry also records for which
    two names the call was made. *)
Record ProviderCall := mkCall {
  call_names : string * string;
  call_point1 : list float64;
  call_point2 : list float64
}.

Definition World := list ProviderCall.

Definition M (A : Type) : Type := World → outcome A * World.

Global Instance M_ret : MRet M := λ A a w, (Returned a, w).
Global Instance M_bind : MBind M := λ A B f c w,
  match c w with
  | (Returned a, w') => f a w'
  | (Panicked reason, w') => (Panicked reason, w')
  end.

Definition lift {A} (o : outcome A) : M A := λ w, (o, w).

(** ** The graph *)

(** [type Edge struct] *)
Record Edge := mkEdge {
  sourceNode : Neighborhood;
  targetNode : Neighborhood;
  distanceInMeters : float64
}.

(** [type Graph struct]; [edges = None] is the nil map. *)
Record Graph := mkGraph {
  nodes : list Neighborhood;
  edges : option (gmap string (list Edge))
}.

(** [var graph Graph] *)
Definition zeroGraph : Graph := mkGraph [] None.

(** [composeDifferingNeighborhoodNamesSlice] *)
Definition composeDifferingNeighborhoodNamesSlice (currentNeighborhoodName : string)
  (allNeighborhoodNames : list Neighborhood) : list Neighborhood :=
  filter (λ neighborhood, currentNeighborhoodName ≠ Name neighborhood) allNeighborhoodNames.

Section Resolver.

Variable R : MapRange.
Variable db : DistanceQuery.

(** The call at line 328, entered in the [World]. *)
Definition callProvider (neighborhood otherNeighborhood : Neighborhood)
  : M (float64 * option error) :=
  let point1 := [Longitude neighborhood; Latitude neighborhood] in
  let point2 := [Longitude otherNeighborhood; Latitude otherNeighborhood] in
  λ w, (getDistanceBetweenTwoCoordinates db point1 point2,
        (w ++ [mkCall (Name neighborhood, Name otherNeighborhood) point1 point2])%list).

(** What line 328 assigns to [distanceInMeters]: the provider's first
    result, which is [0.0] when the query failed. *)
Definition answer (neighborhood otherNeighborhood : Neighborhood) : float64 :=
  match db (Longitude neighborhood) (Latitude neighborhood)
           (Longitude otherNeighborhood) (Latitude otherNeighborhood) with
  | None => PrimFloat.zero
  | Some m => m
  end.

(** Lines 323-332: the distance of a pair, from the cache or from the
    provider. The provider's error is assigned to [_]. *)
Definition resolveDistance (distanceCache : gmap string float64)
  (neighborhood otherNeighborhood : Neighborhood)
  : M (float64 * gmap string float64) :=
  let hashedString :=
    generateNeighborhoodCacheKey (Name neighborhood) (Name otherNeighborhood) in
  match distanceCache !! hashedString with
  | None =>
      '(distanceInMeters, _) ← callProvider neighborhood otherNeighborhood;
      mret (distanceInMeters, <[hashedString := distanceInMeters]> distanceCache)
  | Some distanceInMeters => mret (distanceInMeters, distanceCache)
  end.

(** Line 335: [graph.edges[key] = append(graph.edges[key], edge)].
    Reading a nil map gives the zero value, writing to it panics. *)
Definition appendEdge (graph : Graph) (key : string) (edge : Edge) : outcome Graph :=
  match edges graph with
  | None => Panicked "assignment to entry in nil map"
  | Some m => mret (mkGraph (nodes graph) (Some (<[key := (default [] (m !! key) ++ [edge])%list]> m)))
  end.

(** One round of [for _, otherNeighborhood := range remainingNeighborhoods]. *)
Definition addEdge (neighborhood : Neighborhood)
  (st : Graph * gmap string float64) (otherNeighborhood : Neighborhood)
  : M (Graph * gmap string float64) :=
  let '(graph, distanceCache) := st in
  let sourceNode := neighborhood in
  let targetNode := neighborhood in
  '(distanceInMeters, distanceCache) ←
    resolveDistance distanceCache neighborhood otherNeighborhood;
  let edge := mkEdge sourceNode targetNode distanceInMeters in
  graph ← lift (appendEdge graph (Name neighborhood) edge);
  mret (graph, distanceCache).

Fixpoint addEdges (neighborhood : Neighborhood) (st : Graph * gmap string float64)
  (remainingNeighborhoods : list Neighborhood) : M (Graph * gmap string float64) :=
  match remainingNeighborhoods with
  | [] => mret st
  | otherNeighborhood :: rest =>
      st ← addEdge neighborhood st otherNeighborhood;
      addEdges neighborhood st rest
  end.

(** One round of [for _, neighborhood := range neighborhoods]. *)
Definition addNode (neighborhoods : list Neighborhood)
  (st : Graph * gmap string float64) (neighborhood : Neighborhood)
  : M (Graph * gmap string float64) :=
  let '(graph, distanceCache) := st in
  let graph := mkGraph (nodes graph ++ [neighborhood])%list (edges graph) in
  let remainingNeighborhoods :=
    composeDifferingNeighborhoodNamesSlice (Name neighborhood) neighborhoods in
  addEdges neighborhood (graph, distanceCache) remainingNeighborhoods.

(** Lines 316-337, from any graph and cache. *)
Fixpoint buildGraph (neighborhoods : list Neighborhood) (st : Graph * gmap string float64)
  (todo : list Neighborhood) : M (Graph * gmap string float64) :=
  match todo with
  | [] => mret st
  | neighborhood :: rest =>
      st ← addNode neighborhoods st neighborhood;
      buildGraph neighborhoods st rest
  end.

(** ** The node with the least distance sum *)

(** [for sourceNode, edges := range graph.edges]: ranging over a nil map
    makes no round. *)
Definition rangeEdges (graph : Graph) : list (string * list Edge) :=
  match edges graph with
  | None => []
  | Some m => range_order R m
  end.

(** One round of that loop. A missing key reads as [0]. *)
Definition sumEdges (neighborhoodDistanceSums : gmap string float64)
  (entry : string * list Edge) : gmap string float64 :=
  let '(sourceNode, edges) := entry in
  let sums :=
    match neighborhoodDistanceSums !! sourceNode with
    | Some _ => <[sourceNode := PrimFloat.zero]> neighborhoodDistanceSums
    | None => neighborhoodDistanceSums
    end in
  foldl (λ sums targetNode,
           <[sourceNode := PrimFloat.add (default PrimFloat.zero (sums !! sourceNode))
                                         (distanceInMeters targetNode)]> sums)
        sums edges.

(** One round of [for _, node := range graph.nodes]. *)
Definition pickMin (neighborhoodDistanceSums : gmap string float64)
  (acc : float64 * Neighborhood) (node : Neighborhood) : float64 * Neighborhood :=
  let '(minValue, bestNeighborhood) := acc in
  let nodeDistanceSum := default PrimFloat.zero (neighborhoodDistanceSums !! Name node) in
  if PrimFloat.ltb nodeDistanceSum minValue then (nodeDistanceSum, node)
  else (minValue, bestNeighborhood).

(** [findMinDistanceBetweenNodes] *)
Definition findMinDistanceBetweenNodes (graph : Graph)
  : outcome (Neighborhood * option error) :=
  if decide (length (nodes graph) = 1%nat) then
    node ← at_index (nodes graph) 0; mret (node, None)
  else
    let neighborhoodDistanceSums := foldl sumEdges ∅ (rangeEdges graph) in
    let '(_, bestNeighborhood) :=
      foldl (pickMin neighborhoodDistanceSums) (PrimFloat.infinity, zeroNeighborhood)
            (nodes graph) in
    mret (bestNeighborhood, None).

(** [findNeighborhoodWithLeastDistanceToAllOtherNeighborhoods] *)
Definition findNeighborhoodWithLeastDistanceToAllOtherNeighborhoods
  (neighborhoods : list Neighborhood) : M (Neighborhood * option error) :=
  let graph := zeroGraph in
  let distanceCache : gmap string float64 := ∅ in
  '(graph, _) ← buildGraph neighborhoods (graph, distanceCache) neighborhoods;
  '(optimalNeighborhood, err) ← lift (findMinDistanceBetweenNodes graph);
  match err with
  | Some e => mret (zeroNeighborhood, Some e)
  | None => mret (optimalNeighborhood, None)
  end.

(** Lines 176-183: for every name, in the order returned, every record of
    that name, in the order of the input. *)
Definition highestOccurrence (neighborhoodNames : list string)
  (neighborhoods : list Neighborhood) : list Neighborhood :=
  neighborhoodName ← neighborhoodNames;
  filter (λ neighborhood, neighborhoodName = Name neighborhood) neighborhoods.

(** [FindBestNeighborhood] *)
Definition FindBestNeighborhood (neighborhoods : list Neighborhood)
  : M (Neighborhood * option error) :=
  '(neighborhoodNames, err) ← lift (findNeighborhoodWithHighestOccurrence R neighborhoods);
  match err with
  | Some e => mret (zeroNeighborhood, Some e)
  | None =>
      let highestOccurrenceNeighborhoods :=
        highestOccurrence neighborhoodNames neighborhoods in
      '(optimalNeighborhoodName, err) ←
        findNeighborhoodWithLeastDistanceToAllOtherNeighborhoods
          highestOccurrenceNeighborhoods;
      match err with
      | None => mret (optimalNeighborhoodName, None)
      | Some _ =>
          mret (zeroNeighborhood,
                Some (NoNeighborhoodFoundError
                  "Unable to resolve neighborhood after attempting to find best match."))
      end
  end.

(** The graph and the cache as they stand at line 339 in a call of
    [FindBestNeighborhood]. *)
Definition graphOfCall (neighborhoods : list Neighborhood)
  : M (Graph * gmap string float64) :=
  '(neighborhoodNames, _) ← lift (findNeighborhoodWithHighestOccurrence R neighborhoods);
  let highestOccurrenceNeighborhoods := highestOccurrence neighborhoodNames neighborhoods in
  buildGraph highestOccurrenceNeighborhoods (zeroGraph, ∅) highestOccurrenceNeighborhoods.

End Resolver.

(** ** Two orders of ranging: by ascending and by descending key *)

Definition key_le {V} (x y : string * V) : Prop := String.leb x.1 y.1 = true.

Global Instance key_le_dec {V} (x y : string * V) : Decision (key_le x y) :=
  decide (String.leb x.1 y.1 = true).

Definition ascending : MapRange :=
  mkMapRange (λ V m, merge_sort key_le (map_to_list m))
             (λ V m, merge_sort_Permutation key_le (map_to_list m)).

Definition descending : MapRange :=
  mkMapRange (λ V m, reverse (merge_sort key_le (map_to_list m)))
             (λ V m, Permutation_trans
                       (reverse_Permutation (merge_sort key_le (map_to_list m)))
                       (merge_sort_Permutation key_le (map_to_list m))).

(** ** Notions used in the statements *)

(** The frequency step on the entries of the table in a given order. *)
Definition highestFrom (entries : list (string * Z))
  : outcome (list string * option error) :=
  h ← pushAll [] entries;
  '(neighborhoodNames, err) ← findNeighborhoodsWithSameFrequency h;
  match err with
  | Some e => mret ([], Some e)
  | None => mret (neighborhoodNames, None)
  end.

(** The frequency step returned at least two names, the first two are
    different, and each is the name of a record. *)
Definition twoNamed (neighborhoods : list Neighborhood)
  (o : outcome (list string * option error)) : bool :=
  match o with
  | Returned (n1 :: n2 :: _, None) =>
      bool_decide (n1 ≠ n2 ∧ n1 ∈ Name <$> neighborhoods ∧ n2 ∈ Name <$> neighborhoods)
  | _ => false
  end.

(** The frequency step returned one name. *)
Definition oneNamed (o : outcome (list string * option error)) : bool :=
  match o with
  | Returned ([_], None) => true
  | _ => false
  end.

(** An edge from a node to itself. *)
Definition selfLoop (e : Edge) : Prop := sourceNode e = targetNode e.

(** [e] is one of the edges stored in the graph. *)
Definition edgeIn (graph : Graph) (e : Edge) : Prop :=
  ∃ m key es, edges graph = Some m ∧ m !! key = Some es ∧ e ∈ es.

(** All the edges stored in a graph, as (source, target, distance). *)
Definition allEdges (R : MapRange) (graph : Graph) : list (string * string * float64) :=
  match edges graph with
  | None => []
  | Some m =>
      '(_, es) ← range_order R m;
      (λ e, (Name (sourceNode e), Name (targetNode e), distanceInMeters e)) <$> es
  end.

(** The two names of a provider call, as an unordered pair: sorted. *)
Definition unorderedPair (c : ProviderCall) : list string :=
  sort_Strings [(call_names c).1; (call_names c).2].

(** The cache key a provider call was made for. *)
Definition callKey (c : ProviderCall) : string :=
  generateNeighborhoodCacheKey (call_names c).1 (call_names c).2.

(** The provider was called once for each key it was called for, and the
    cache holds an entry for each of them. *)
Definition memoInv (distanceCache : gmap string float64) (w : World) : Prop :=
  NoDup (callKey <$> w) ∧ ∀ k, k ∈ callKey <$> w → is_Some (distanceCache !! k).

(** The same after a step that may have panicked, when the cache is gone. *)
Definition memoPost (res : outcome (Graph * gmap string float64) * World) : Prop :=
  match res with
  | (Returned (_, distanceCache), w) => memoInv distanceCache w
  | (Panicked _, w) => NoDup (callKey <$> w)
  end.

(** What the last two steps of
    [findNeighborhoodWithLeastDistanceToAllOtherNeighborhoods] make of the
    graph. *)
Definition leastOf (R : MapRange) (graph : Graph) : outcome (Neighborhood * option error) :=
  '(optimalNeighborhood, err) ← findMinDistanceBetweenNodes R graph;
  match err with
  | Some e => mret (zeroNeighborhood, Some e)
  | None => mret (optimalNeighborhood, None)
  end.

(** ** Inputs of the examples *)

(** A record with only a name and the longitude of its centroid. *)
Definition nb (n : string) (longitude : float64) : Neighborhood :=
  mkNeighborhood n "" "" "" PrimFloat.zero longitude.

Definition A : Neighborhood := nb "A" 0%float.
Definition B : Neighborhood := nb "B" 1%float.
Definition C : Neighborhood := nb "C" 2%float.
(** A second record named [A], of another city. *)
Definition A' : Neighborhood := mkNeighborhood "A" "Elsewhere" "" "" 5%float 5%float.

(** A provider whose every query fails. *)
Definition failing : DistanceQuery := λ _ _ _ _, None.

(** The three-way tie of the specification: A-B = 100, A-C = 100,
    B-C = 300, told apart by the longitudes 0, 1 and 2. *)
Definition threeWay : DistanceQuery := λ x1 _ x2 _,
  if PrimFloat.eqb (PrimFloat.add x1 x2) 3%float then Some 300%float
  else Some 100%float.

(** The first scenario of the specification: two names with two records
    each and a third name with one. *)
Definition Downtown : Neighborhood := nb "Downtown" 0%float.
Definition Southside : Neighborhood := nb "Southside" 1%float.
Definition EastBay : Neighborhood := nb "EastBay" 2%float.
Definition twoWayTie : list Neighborhood :=
  [Downtown; Downtown; Southside; Southside; EastBay].

(** Three records of each of three names. *)
Definition threeWayTie : list Neighborhood := [A; B; C; A; B; C; A; B; C].

(** An allocated, empty edge map, which the code never makes. *)
Definition allocatedGraph : Graph := mkGraph [] (Some ∅).

(** ** The neighborhood of an attraction *)

(** [api.Attraction] is declared in a file that is not here. The code
    reads and writes its fields [Latitude] and [Longitude]; whatever else
    it holds is [Rest]. *)
Record Attraction (Rest : Type) := mkAttraction {
  AttractionRest : Rest;
  AttractionLatitude : float64;
  AttractionLongitude : float64
}.
Arguments mkAttraction {Rest} _ _ _.
Arguments AttractionRest {Rest} _.
Arguments AttractionLatitude {Rest} _.
Arguments AttractionLongitude {Rest} _.

(** One row of [attractionInNeighborhoodQuery], as [rows.Scan] reads it. *)
Record Row := mkRow {
  in_neighborhood : bool;
  row_name : string;
  row_city : string;
  row_state : string;
  row_country : string
}.

(** What the three queries answer.
    - [containing x y]: the rows of [attractionInNeighborhoodQuery] with
      [$1 = x] and [$2 = y]; [None] when [Query] returns an error; a row is
      [None] when its [rows.Scan] returns an error.
    - [centroid name city state]: the two columns [ST_X] and [ST_Y] of
      [centroidQueryStr], in that order; [None] when [row.Scan] returns an
      error.
    - [distance]: the query of [getDistanceBetweenTwoCoordinates]. *)
Record Database := mkDatabase {
  containing : float64 → float64 → option (list (option Row));
  centroid : string → string → string → option (float64 * float64);
  distance : DistanceQuery
}.

(** The errors of [Query] and of [rows.Scan]. *)
Inductive lookupError :=
  | QueryError
  | RowScanError.

(** [resolveNeighborhoodMultiPolygonsCentroidPoint] *)
Definition resolveNeighborhoodMultiPolygonsCentroidPoint (db : Database)
  (neighborhoodName neighborhoodCity neighborhoodState : string)
  : list float64 * option error :=
  match centroid db neighborhoodName neighborhoodCity neighborhoodState with
  | None => ([], Some ScanError)
  | Some (x, y) => ([x; y], None)
  end.

(** The variables of the loop of [FindNeighborhoodContainingAttraction]. *)
Record Matching := mkMatching {
  matchedNeighborhoods : list Neighborhood;
  minDistanceInMeters : float64;
  i : nat;
  bestNeighborhoodIdx : nat
}.

(** [minDistanceInMeters := 999999.0; i := 0; bestNeighborhoodIdx := 0] *)
Definition startMatching : Matching := mkMatching [] 999999%float 0 0.

(** One round of [for rows.Next()] on a row that scanned. *)
Definition matchRow {Rest} (db : Database) (attraction : Attraction Rest)
  (st : Matching) (row : Row) : outcome Matching :=
  if negb (in_neighborhood row) then mret st
  else
    let '(coordinates, err) :=
      resolveNeighborhoodMultiPolygonsCentroidPoint db
        (row_name row) (row_city row) (row_state row) in
    match err with
    | Some _ => mret st
    | None =>
        latitude ← at_index coordinates 0;
        longitude ← at_index coordinates 1;
        let attractionsCoordinates :=
          [AttractionLongitude attraction; AttractionLatitude attraction] in
        '(distanceInMeters, err) ←
          getDistanceBetweenTwoCoordinates (distance db) coordinates attractionsCoordinates;
        match err with
        | Some _ => mret st
        | None =>
            let neighborhood :=
              mkNeighborhood (row_name row) (row_city row) (row_state row)
                             (row_country row) latitude longitude in
            let matched := (matchedNeighborhoods st ++ [neighborhood])%list in
            if PrimFloat.ltb distanceInMeters (minDistanceInMeters st)
            then mret (mkMatching matched distanceInMeters (S (i st)) (i st))
            else mret (mkMatching matched (minDistanceInMeters st) (S (i st))
                                  (bestNeighborhoodIdx st))
        end
    end.

(** The loop; a row that does not scan ends the call with its error. *)
Fixpoint matchRows {Rest} (db : Database) (attraction : Attraction Rest)
  (st : Matching) (rows : list (option Row)) : outcome (Matching + lookupError) :=
  match rows with
  | [] => mret (inl st)
  | None :: _ => mret (inr RowScanError)
  | Some row :: rest =>
      st ← matchRow db attraction st row;
      matchRows db attraction st rest
  end.

(** [FindNeighborhoodContainingAttraction]. The [err] that the last two
    [return]s pass on is the one of [Query], nil there: the [err]s declared
    in the loop are other variables. *)
Definition FindNeighborhoodContainingAttraction {Rest} (db : Database)
  (attraction : Attraction Rest) : outcome (Neighborhood * option lookupError) :=
  match containing db (AttractionLongitude attraction) (AttractionLatitude attraction) with
  | None => mret (zeroNeighborhood, Some QueryError)
  | Some rows =>
      res ← matchRows db attraction startMatching rows;
      match res with
      | inr err => mret (zeroNeighborhood, Some err)
      | inl st =>
          if decide (length (matchedNeighborhoods st) = 0%nat)
          then mret (zeroNeighborhood, None)
          else
            neighborhood ← at_index (matchedNeighborhoods st) (bestNeighborhoodIdx st);
            mret (neighborhood, None)
      end
  end.

(** [buildGraphFromNeighborhoods] *)
Definition buildGraphFromNeighborhoods (graph : Graph)
  (neighborhoods : list Neighborhood) : Graph * option error :=
  (foldl (λ graph neighborhood,
            mkGraph (nodes graph ++ [neighborhood])%list (edges graph))
         graph neighborhoods,
   None).

(** ** The handler of [/attractions] *)

(** [type AttractionsResponse struct] *)
Record AttractionsResponse (Rest : Type) := mkResponse {
  SuccessfulAttractions : list (Attraction Rest);
  FailedAttractions : list (Attraction Rest);
  ClosestNeighborhood : Neighborhood
}.
Arguments mkResponse {Rest} _ _ _.
Arguments SuccessfulAttractions {Rest} _.
Arguments FailedAttractions {Rest} _.
Arguments ClosestNeighborhood {Rest} _.

(** What [log.Fatal] was called with. *)
Inductive fatal :=
  | FatalLookup (err : lookupError)
  | FatalBest (err : error).

(** How a request ends: the response is written, [log.Fatal] ends the
    process, or the goroutine of the request panics. *)
Inductive ending (A : Type) :=
  | Responded (a : A)
  | Exited (reason : fatal)
  | Crashed (reason : string).
Arguments Responded {A} a.
Arguments Exited {A} reason.
Arguments Crashed {A} reason.

Section Handler.

Context {Rest : Type}.

(** [attraction.GeocodeAttraction(geocoder)]: the location found, as
    [(Lat, Lng)], or [None] for the nil location. *)
Variable geocode : Attraction Rest → option (float64 * float64).
Variable R : MapRange.
Variable db : Database.

(** One round of [for _, attraction := range attractions]; the state is
    the response and [neighborhoods]. *)
Definition handleAttraction
  (st : AttractionsResponse Rest * list Neighborhood) (attraction : Attraction Rest)
  : ending (AttractionsResponse Rest * list Neighborhood) :=
  let '(responseAttractions, neighborhoods) := st in
  match geocode attraction with
  | None =>
      Responded
        (mkResponse (SuccessfulAttractions responseAttractions)
                    (FailedAttractions responseAttractions ++ [attraction])%list
                    (ClosestNeighborhood responseAttractions),
         neighborhoods)
  | Some (lat, lng) =>
      let attraction := mkAttraction (AttractionRest attraction) lat lng in
      let responseAttractions :=
        mkResponse (SuccessfulAttractions responseAttractions ++ [attraction])%list
                   (FailedAttractions responseAttractions)
                   (ClosestNeighborhood responseAttractions) in
      match FindNeighborhoodContainingAttraction db attraction with
      | Panicked reason => Crashed reason
      | Returned (_, Some err) => Exited (FatalLookup err)
      | Returned (neighborhood, None) =>
          Responded (responseAttractions, (neighborhoods ++ [neighborhood])%list)
      end
  end.

Fixpoint handleAttractions
  (st : AttractionsResponse Rest * list Neighborhood) (attractions : list (Attraction Rest))
  : ending (AttractionsResponse Rest * list Neighborhood) :=
  match attractions with
  | [] => Responded st
  | attraction :: rest =>
      match handleAttraction st attraction with
      | Responded st => handleAttractions st rest
      | Exited reason => Exited reason
      | Crashed reason => Crashed reason
      end
  end.

(** [handler], from the decoded [attractions] to the response that is
    encoded. *)
Definition handler (attractions : list (Attraction Rest))
  : ending (AttractionsResponse Rest) :=
  match handleAttractions (mkResponse [] [] zeroNeighborhood, []) attractions with
  | Responded (responseAttractions, neighborhoods) =>
      match (FindBestNeighborhood R (distance db) neighborhoods []).1 with
      | Panicked reason => Crashed reason
      | Returned (_, Some err) => Exited (FatalBest err)
      | Returned (closestNeighborhood, None) =>
          Responded (mkResponse (SuccessfulAttractions responseAttractions)
                                (FailedAttractions responseAttractions)
                                closestNeighborhood)
      end
  | Exited reason => Exited reason
  | Crashed reason => Crashed reason
  end.

End Handler.

(** ** Notions used in the further statements *)

(** How many records have the name [x]. *)
Definition occurrences (x : string) (neighborhoods : list Neighborhood) : nat :=
  length (filter (λ neighborhood, Name neighborhood = x) neighborhoods).

(** The entries of the frequency table as elements of the heap. *)
Definition entriesOf (m : gmap string Z) : list neighorboodNameFrequency :=
  (λ kv, mkFrequency kv.1 kv.2) <$> map_to_list m.

(** Every element but the first has a count that is not below the count
    of its parent, the element at [(j - 1) / 2]. *)
Definition heapOrdered (h : list neighorboodNameFrequency) : Prop :=
  ∀ j x y, (0 < j)%nat → h !! j = Some x → h !! ((j - 1) / 2)%nat = Some y →
           (count y ≤ count x)%Z.

(** The same but for the element at [j], which may be below its parent
    though its children are not below that parent. *)
Definition orderedExcept (h : list neighorboodNameFrequency) (j : nat) : Prop :=
  (∀ k x y, (0 < k)%nat → k ≠ j → h !! k = Some x → h !! ((k - 1) / 2)%nat = Some y →
            (count y ≤ count x)%Z) ∧
  (∀ c x y, (0 < j)%nat → (0 < c)%nat → ((c - 1) / 2)%nat = j →
            h !! c = Some x → h !! ((j - 1) / 2)%nat = Some y → (count y ≤ count x)%Z).

(** No element has a count below the count of the first. *)
Definition rootLeast (h : list neighorboodNameFrequency) : Prop :=
  ∀ r x, h !! 0%nat = Some r → x ∈ h → (count r ≤ count x)%Z.

(** The counts do not go down along the list, and do not start below
    [from]. *)
Fixpoint climbing (from : Z) (l : list neighorboodNameFrequency) : Prop :=
  match l with
  | [] => True
  | v :: rest => (from ≤ count v)%Z ∧ climbing (count v) rest
  end.

(** The distances of a list of edges, added up from [0] in the order of
    the list. *)
Definition sumDistances (es : list Edge) : float64 :=
  foldl (λ acc e, PrimFloat.add acc (distanceInMeters e)) PrimFloat.zero es.

(** The edges stored under a key; none on the nil map or for a missing key. *)
Definition edgesAt (graph : Graph) (key : string) : list Edge :=
  match edges graph with
  | Some m => default [] (m !! key)
  | None => []
  end.

(** The sum that [findMinDistanceBetweenNodes] reads for a node. *)
Definition sumOf (R : MapRange) (graph : Graph) (node : Neighborhood) : float64 :=
  default PrimFloat.zero (foldl sumEdges ∅ (rangeEdges R graph) !! Name node).

(** What a row that scanned adds to [matchedNeighborhoods], with the
    distance found for it: nothing when the row is not in the
    neighborhood, or when its centroid or its distance does not resolve. *)
Definition matchOf {Rest} (db : Database) (attraction : Attraction Rest) (row : Row)
  : option (Neighborhood * float64) :=
  if in_neighborhood row then
    '(x, y) ← centroid db (row_name row) (row_city row) (row_state row);
    d ← distance db x y (AttractionLongitude attraction) (AttractionLatitude attraction);
    Some (mkNeighborhood (row_name row) (row_city row) (row_state row) (row_country row)
                         x y, d)
  else None.

(** The loop variables after one more match. *)
Definition addMatch (st : Matching) (found : Neighborhood * float64) : Matching :=
  if PrimFloat.ltb found.2 (minDistanceInMeters st)
  then mkMatching (matchedNeighborhoods st ++ [found.1])%list found.2 (S (i st)) (i st)
  else mkMatching (matchedNeighborhoods st ++ [found.1])%list (minDistanceInMeters st)
                  (S (i st)) (bestNeighborhoodIdx st).

(** An attraction with its coordinates set to what the geocoder found. *)
Definition located {Rest} (geocode : Attraction Rest → option (float64 * float64))
  (attraction : Attraction Rest) : option (Attraction Rest) :=
  '(lat, lng) ← geocode attraction;
  Some (mkAttraction (AttractionRest attraction) lat lng).

(** An attraction for which the geocoder found nothing. *)
Definition unlocated {Rest} (geocode : Attraction Rest → option (float64 * float64))
  (attraction : Attraction Rest) : option (Attraction Rest) :=
  match geocode attraction with
  | None => Some attraction
  | Some _ => None
  end.

(** The rows when all of them scan. *)
Fixpoint scanned (rows : list (option Row)) : option (list Row) :=
  match rows with
  | [] => Some []
  | None :: _ => None
  | Some row :: rest => rs ← scanned rest; Some (row :: rs)
  end.

(** A database with two neighborhoods around every point; the centroid of
    Downtown is at (1, 2), that of Southside at (3, 4), and the distance
    between two points is here the first coordinate of the first. *)
Definition twoRows : Database :=
  mkDatabase
    (λ _ _, Some [Some (mkRow true "Downtown" "Kelowna" "BC" "Canada");
                  Some (mkRow true "Southside" "Kelowna" "BC" "Canada")])
    (λ name _ _, if String.eqb name "Downtown" then Some (1%float, 2%float)
                 else Some (3%float, 4%float))
    (λ x1 _ _ _, Some x1).

(** A database that finds no neighborhood around any point. *)
Definition noRows : Database :=
  mkDatabase (λ _ _, Some []) (λ _ _ _, None) (λ _ _ _ _, None).

Definition somewhere : Attraction unit := mkAttraction () 0%float 0%float.

(** The errors of the lookups of the attractions that the geocoder
    located, in the order of the attractions. *)
Definition lookupErrors {Rest} (geocode : Attraction Rest → option (float64 * float64))
  (db : Database) (attractions : list (Attraction Rest)) : list lookupError :=
  omap (λ attraction,
          match FindNeighborhoodContainingAttraction db attraction with
          | Returned (_, Some err) => Some err
          | _ => None
          end)
       (omap (located geocode) attractions).

(** A geocoder that locates at (1, 2) the attractions marked [true], and
    no other. *)
Definition known : Attraction bool → option (float64 * float64) :=
  λ attraction, if AttractionRest attraction then Some (1%float, 2%float) else None.

Definition threeAttractions : list (Attraction bool) :=
  [mkAttraction true 0%float 0%float; mkAttraction false 0%float 0%float;
   mkAttraction true 5%float 5%float].

(** * Facts *)

Ltac unfold_M :=
  unfold mbind, mret, M_bind, M_ret, outcome_bind, outcome_ret, lift in *.

Section Facts.

Context (R : MapRange) (db : DistanceQuery).

(** ** The heap and the loop that pops it never panic *)

Lemma at_index_lt {A} (l : list A) (i : nat) :
  (i < length l)%nat → ∃ x, l !! i = Some x ∧ at_index l i = Returned x.
Proof.
  intros Hi. destruct (lookup_lt_is_Some_2 l i Hi) as [x Hx].
  exists x. unfold at_index. by rewrite Hx.
Qed.

Lemma parent_le (j : nat) : ((j - 1) / 2 ≤ j - 1)%nat.
Proof. apply Nat.Div0.div_le_upper_bound. lia. Qed.

Lemma up_returns fuel : ∀ h j,
  (j < length h)%nat → ∃ h', up fuel h j = Returned h' ∧ length h' = length h.
Proof.
  induction fuel as [|fuel IH]; intros h j Hj; [by exists h|].
  cbn [up]. case_decide as Hi; [by exists h|].
  pose proof (parent_le j) as Hle.
  assert ((j - 1) / 2 < length h)%nat as Hp by lia.
  destruct (at_index_lt h j Hj) as (x & _ & Hx).
  destruct (at_index_lt h _ Hp) as (y & _ & Hy).
  unfold Less, Swap. rewrite Hx, Hy.
  unfold mbind, outcome_bind, mret, outcome_ret.
  destruct (bool_decide (count x < count y)); cbn [negb]; [|by exists h].
  destruct (IH (<[j:=y]> (<[((j - 1) / 2)%nat:=x]> h)) ((j - 1) / 2)%nat)
    as (h' & E & L); [by rewrite !length_insert|].
  exists h'. split; [done|]. by rewrite L, !length_insert.
Qed.

(** More rounds than [S j] change nothing. *)
Lemma up_fuel fuel1 : ∀ fuel2 h j,
  (j < fuel1)%nat → (j < fuel2)%nat → up fuel1 h j = up fuel2 h j.
Proof.
  induction fuel1 as [|fuel1 IH]; intros [|fuel2] h j H1 H2; try lia.
  cbn [up]. case_decide as Hi; [done|].
  unfold mbind, outcome_bind, mret, outcome_ret.
  destruct (Less h j ((j - 1) / 2)) as [[|]|reason]; cbn [negb]; try done.
  destruct (Swap h ((j - 1) / 2) j) as [h'|reason]; [|done].
  pose proof (parent_le j). apply IH; lia.
Qed.

Lemma heap_Push_returns h x :
  ∃ h', heap_Push h x = Returned h' ∧ length h' = S (length h).
Proof.
  unfold heap_Push, Push, Len.
  destruct (up_returns (length (h ++ [x])) (h ++ [x]) (length (h ++ [x]) - 1))
    as (h' & E & L).
  - rewrite length_app. simpl. lia.
  - exists h'. split; [done|]. rewrite L, length_app. simpl. lia.
Qed.

Lemma pushAll_returns entries : ∀ h,
  ∃ h', pushAll h entries = Returned h' ∧ length h' = (length h + length entries)%nat.
Proof.
  unfold pushAll. induction entries as [|kv entries IH]; intros h.
  - exists h. split; [done|]. simpl. lia.
  - cbn [foldl].
    destruct (heap_Push_returns h (mkFrequency kv.1 kv.2)) as (h1 & E & L).
    change (mret h ≫= _) with (heap_Push h (mkFrequency kv.1 kv.2)).
    rewrite E. destruct (IH h1) as (h' & E' & L').
    exists h'. split; [done|]. rewrite L', L. simpl. lia.
Qed.

Lemma getMaxHeap_returns m :
  ∃ h, getMaxHeap R m = Returned h ∧ length h = length (range_order R m).
Proof.
  unfold getMaxHeap. destruct (pushAll_returns (range_order R m) []) as (h & E & L).
  by exists h.
Qed.

Lemma Pop_returns h :
  h ≠ [] → ∃ v, Pop h = Returned (v, take (length h - 1) h).
Proof.
  intros Hne. unfold Pop. case_decide as Hz.
  - by destruct h.
  - destruct (at_index_lt h (length h - 1)) as (v & _ & E); [lia|].
    exists v. by rewrite E.
Qed.

Lemma sameFrequencyLoop_returns fuel : ∀ i h maxCount names,
  ∃ names', sameFrequencyLoop fuel i h maxCount names = Returned names'.
Proof.
  induction fuel as [|fuel IH]; intros i h maxCount names; [by eexists|].
  cbn [sameFrequencyLoop]. case_decide as Hi; [|by eexists].
  destruct (Pop_returns h) as [v E]; [destruct h; [simpl in Hi; lia|done]|].
  rewrite E. cbn. case_decide; [by eexists|]. apply IH.
Qed.

(** More rounds than [Len h] change nothing. *)
Lemma sameFrequencyLoop_fuel fuel1 : ∀ fuel2 i h maxCount names,
  (Len h ≤ fuel1)%nat → (Len h ≤ fuel2)%nat →
  sameFrequencyLoop fuel1 i h maxCount names =
  sameFrequencyLoop fuel2 i h maxCount names.
Proof.
  unfold Len.
  induction fuel1 as [|fuel1 IH]; intros [|fuel2] i h maxCount names H1 H2;
    cbn [sameFrequencyLoop]; unfold Len; try done;
    try (case_decide; [lia|done]).
  case_decide as Hi; [|done].
  destruct (Pop_returns h) as [v E]; [destruct h; [simpl in Hi; lia|done]|].
  rewrite E. cbn. case_decide; [done|].
  apply IH; rewrite length_take; lia.
Qed.

Lemma findSame_returns h :
  ∃ names, findNeighborhoodsWithSameFrequency h = Returned (names, None).
Proof.
  unfold findNeighborhoodsWithSameFrequency.
  case_decide as H0; [by eexists|]. case_decide as H1.
  - destruct (Pop_returns h) as [v E]; [by destruct h|]. rewrite E. by eexists.
  - destruct (sameFrequencyLoop_returns (Len h) 0 h 0 []) as [names E].
    rewrite E. by eexists.
Qed.

(** The frequency step always returns, and with a nil error. *)
Lemma highestOccurrence_returns neighborhoods :
  ∃ names,
    findNeighborhoodWithHighestOccurrence R neighborhoods = Returned (names, None).
Proof.
  unfold findNeighborhoodWithHighestOccurrence.
  destruct (getMaxHeap_returns (frequencyTable neighborhoods)) as (h & E & _).
  rewrite E. cbn. destruct (findSame_returns h) as [names E']. rewrite E'.
  by exists names.
Qed.

Lemma highestOccurrence_empty :
  findNeighborhoodWithHighestOccurrence R [] = Returned ([], None).
Proof.
  unfold findNeighborhoodWithHighestOccurrence, getMaxHeap, frequencyTable.
  cbn [foldl].
  pose proof (range_order_perm R Z ∅) as P. rewrite map_to_list_empty in P.
  apply Permutation_nil_r in P. by rewrite P.
Qed.

(** The loop makes a round for every second element only: it returns at
    most half of the names, rounded up. *)
Lemma sameFrequencyLoop_half fuel : ∀ i h maxCount names names',
  sameFrequencyLoop fuel i h maxCount names = Returned names' →
  (2 * length names' ≤ 2 * length names + (Len h - i) + 1)%nat.
Proof.
  unfold Len.
  induction fuel as [|fuel IH]; intros i h maxCount names names';
    cbn [sameFrequencyLoop]; unfold Len.
  - intros [= <-]. lia.
  - case_decide as Hi; [|intros [= <-]; lia].
    destruct (Pop_returns h) as [v E]; [destruct h; [simpl in Hi; lia|done]|].
    rewrite E. unfold mbind, outcome_bind, mret, outcome_ret.
    case_decide; [intros [= <-]; lia|].
    intros Hloop. apply IH in Hloop.
    rewrite length_app, length_take in Hloop. simpl in Hloop. lia.
Qed.

Lemma findSame_half h names err :
  findNeighborhoodsWithSameFrequency h = Returned (names, err) →
  (2 * length names ≤ Len h + 1)%nat.
Proof.
  unfold findNeighborhoodsWithSameFrequency.
  case_decide as H0; [intros [= <- <-]; simpl; lia|]. case_decide as H1.
  - destruct (Pop_returns h) as [v E]; [by destruct h|]. rewrite E.
    intros [= <- <-]. simpl. lia.
  - destruct (sameFrequencyLoop (Len h) 0 h 0 []) as [names0|reason] eqn:E; [|done].
    intros [= <- <-]. apply sameFrequencyLoop_half in E. simpl in E. lia.
Qed.

(** Of [n] different names the frequency step returns at most [(n + 1) / 2]. *)
Lemma highestOccurrence_half neighborhoods :
  match findNeighborhoodWithHighestOccurrence R neighborhoods with
  | Returned (names, _) =>
      (2 * length names ≤ size (frequencyTable neighborhoods) + 1)%nat
  | Panicked _ => False
  end.
Proof.
  unfold findNeighborhoodWithHighestOccurrence.
  destruct (getMaxHeap_returns (frequencyTable neighborhoods)) as (h & E & L).
  rewrite E. unfold mbind, outcome_bind, mret, outcome_ret.
  destruct (findSame_returns h) as [names E']. rewrite E'.
  apply findSame_half in E'. unfold Len in E'.
  rewrite L, (range_order_perm R), length_map_to_list in E'. done.
Qed.

(** ** The provider and the cache *)

(** ** The provider and the cache *)

Lemma getDistance_pair (a b c d : float64) :
  getDistanceBetweenTwoCoordinates db [a; b] [c; d] =
  Returned match db a b c d with
           | None => (PrimFloat.zero, Some ScanError)
           | Some m => (m, None)
           end.
Proof.
  unfold getDistanceBetweenTwoCoordinates. simpl.
  by destruct (db a b c d).
Qed.

Lemma resolveDistance_miss distanceCache n o w :
  distanceCache !! generateNeighborhoodCacheKey (Name n) (Name o) = None →
  resolveDistance db distanceCache n o w =
  (Returned (answer db n o,
             <[generateNeighborhoodCacheKey (Name n) (Name o) := answer db n o]>
               distanceCache),
   (w ++ [mkCall (Name n, Name o) [Longitude n; Latitude n] [Longitude o; Latitude o]])%list).
Proof.
  intros Hmiss. unfold resolveDistance, callProvider, answer. rewrite Hmiss.
  unfold_M. rewrite getDistance_pair.
  by destruct (db _ _ _ _).
Qed.

Lemma resolveDistance_hit distanceCache n o w d :
  distanceCache !! generateNeighborhoodCacheKey (Name n) (Name o) = Some d →
  resolveDistance db distanceCache n o w = (Returned (d, distanceCache), w).
Proof. intros Hhit. unfold resolveDistance. by rewrite Hhit. Qed.

(** A lookup of a distance never panics and never reports an error. *)
Lemma resolveDistance_returns distanceCache n o w :
  ∃ d distanceCache' w',
    resolveDistance db distanceCache n o w = (Returned (d, distanceCache'), w').
Proof.
  destruct (distanceCache !! generateNeighborhoodCacheKey (Name n) (Name o))
    as [d|] eqn:E.
  - eexists _, _, _. by apply resolveDistance_hit.
  - eexists _, _, _. by apply resolveDistance_miss.
Qed.

(** ** Building the graph on the nil map *)

Lemma addEdge_nil_map graph distanceCache n o w :
  edges graph = None →
  (addEdge db n (graph, distanceCache) o w).1 =
  Panicked "assignment to entry in nil map".
Proof.
  intros Hnil. unfold addEdge.
  destruct (resolveDistance_returns distanceCache n o w) as (d & c' & w' & E).
  unfold_M. rewrite E. unfold appendEdge. by rewrite Hnil.
Qed.

Lemma addEdges_cons n st o rest w :
  addEdges db n st (o :: rest) w =
  match addEdge db n st o w with
  | (Returned st', w') => addEdges db n st' rest w'
  | (Panicked reason, w') => (Panicked reason, w')
  end.
Proof. reflexivity. Qed.

Lemma buildGraph_cons all st n rest w :
  buildGraph db all st (n :: rest) w =
  match addNode db all st n w with
  | (Returned st', w') => buildGraph db all st' rest w'
  | (Panicked reason, w') => (Panicked reason, w')
  end.
Proof. reflexivity. Qed.

Lemma addEdges_nil_map graph distanceCache n o rest w :
  edges graph = None →
  (addEdges db n (graph, distanceCache) (o :: rest) w).1 =
  Panicked "assignment to entry in nil map".
Proof.
  intros Hnil. rewrite addEdges_cons.
  pose proof (addEdge_nil_map graph distanceCache n o w Hnil) as E.
  destruct (addEdge _ _ _ _ _) as [[st|reason] w']; simpl in E; by inversion E.
Qed.

Lemma addNode_nil_map all graph distanceCache n w :
  edges graph = None →
  match addNode db all (graph, distanceCache) n w with
  | (Returned (graph', distanceCache'), w') =>
      graph' = mkGraph (nodes graph ++ [n]) None ∧ distanceCache' = distanceCache ∧
      w' = w ∧ composeDifferingNeighborhoodNamesSlice (Name n) all = []
  | (Panicked reason, _) =>
      reason = "assignment to entry in nil map" ∧
      composeDifferingNeighborhoodNamesSlice (Name n) all ≠ []
  end.
Proof.
  intros Hnil. unfold addNode.
  destruct (composeDifferingNeighborhoodNamesSlice (Name n) all) as [|o rest] eqn:E.
  - simpl. unfold_M. by rewrite Hnil.
  - pose proof (addEdges_nil_map (mkGraph (nodes graph ++ [n]) (edges graph))
                  distanceCache n o rest w Hnil) as P.
    destruct (addEdges _ _ _ _ _) as [[st|reason] w']; simpl in P; by inversion P.
Qed.

(** From a graph on the nil map, the loop either returns with the nodes
    appended and nothing else changed, every node having found no record
    of another name, or it panics at the first node that finds one. *)
Lemma buildGraph_nil_map all todo : ∀ graph distanceCache w,
  edges graph = None →
  match buildGraph db all (graph, distanceCache) todo w with
  | (Returned (graph', distanceCache'), w') =>
      graph' = mkGraph (nodes graph ++ todo) None ∧ distanceCache' = distanceCache ∧
      w' = w ∧
      Forall (λ n, composeDifferingNeighborhoodNamesSlice (Name n) all = []) todo
  | (Panicked reason, _) =>
      reason = "assignment to entry in nil map" ∧
      Exists (λ n, composeDifferingNeighborhoodNamesSlice (Name n) all ≠ []) todo
  end.
Proof.
  induction todo as [|n rest IH]; intros graph distanceCache w Hnil.
  - simpl. unfold_M. rewrite app_nil_r. by destruct graph; simpl in *; subst.
  - rewrite buildGraph_cons.
    pose proof (addNode_nil_map all graph distanceCache n w Hnil) as P.
    destruct (addNode _ _ _ _ _) as [[[graph1 cache1]|reason] w1].
    + destruct P as (-> & -> & -> & E).
      specialize (IH (mkGraph (nodes graph ++ [n]) None) distanceCache w eq_refl).
      destruct (buildGraph _ _ _ _ _) as [[[graph2 cache2]|reason] w2].
      * destruct IH as (-> & -> & -> & F). simpl. rewrite <- app_assoc.
        repeat split; try done. by constructor.
      * destruct IH as [-> X]. split; [done|]. by apply Exists_cons_tl.
    + destruct P as [-> X]. split; [done|]. by apply Exists_cons_hd.
Qed.

(** ** The least distance sum on the nil map *)

Lemma pickMin_empty acc node :
  pickMin ∅ acc node =
  if PrimFloat.ltb PrimFloat.zero acc.1 then (PrimFloat.zero, node) else acc.
Proof. unfold pickMin. destruct acc as [minValue best]. by rewrite lookup_empty. Qed.

Lemma pickMin_zero n rest :
  foldl (pickMin ∅) (PrimFloat.zero, n) rest = (PrimFloat.zero, n).
Proof.
  induction rest as [|o rest IH]; [done|].
  cbn [foldl]. by rewrite pickMin_empty.
Qed.

(** Without edges every sum reads as [0], and the first node wins. *)
Lemma findMin_nil_map l :
  findMinDistanceBetweenNodes R (mkGraph l None) =
  Returned (default zeroNeighborhood (head l), None).
Proof.
  unfold findMinDistanceBetweenNodes, rangeEdges. simpl nodes. simpl edges.
  destruct l as [|n [|o rest]]; try done.
  case_decide as Hlen; [done|]. cbn [foldl].
  rewrite !pickMin_empty. cbn [fst].
  change (PrimFloat.ltb PrimFloat.zero PrimFloat.infinity) with true.
  change (PrimFloat.ltb PrimFloat.zero PrimFloat.zero) with false.
  cbn [fst].
  change (PrimFloat.ltb PrimFloat.zero PrimFloat.zero) with false.
  cbn iota. by rewrite pickMin_zero.
Qed.

Lemma leastOf_nil_map l :
  leastOf R (mkGraph l None) = Returned (default zeroNeighborhood (head l), None).
Proof. unfold leastOf. by rewrite findMin_nil_map. Qed.

Lemma findLeast_leastOf l w :
  findNeighborhoodWithLeastDistanceToAllOtherNeighborhoods R db l w =
  match buildGraph db l (zeroGraph, ∅) l w with
  | (Returned (graph, _), w') => (leastOf R graph, w')
  | (Panicked reason, w') => (Panicked reason, w')
  end.
Proof.
  unfold findNeighborhoodWithLeastDistanceToAllOtherNeighborhoods, leastOf.
  unfold_M. destruct (buildGraph _ _ _ _ _) as [[[graph cache]|reason] w']; [|done].
  destruct (findMinDistanceBetweenNodes R graph) as [[n [e|]]|reason]; done.
Qed.

(** The whole of the tie-break: it returns the first record when no two
    records differ in name, and panics otherwise. *)
Lemma findLeast_cases l w :
  match findNeighborhoodWithLeastDistanceToAllOtherNeighborhoods R db l w with
  | (Returned result, w') =>
      result = (default zeroNeighborhood (head l), None) ∧ w' = w ∧
      Forall (λ n, composeDifferingNeighborhoodNamesSlice (Name n) l = []) l
  | (Panicked reason, _) =>
      reason = "assignment to entry in nil map" ∧
      Exists (λ n, composeDifferingNeighborhoodNamesSlice (Name n) l ≠ []) l
  end.
Proof.
  rewrite findLeast_leastOf.
  pose proof (buildGraph_nil_map l l zeroGraph ∅ w eq_refl) as P.
  destruct (buildGraph _ _ _ _ _) as [[[graph cache]|reason] w']; [|done].
  destruct P as (-> & -> & -> & F). simpl. by rewrite leastOf_nil_map.
Qed.

(** Records of one name and records of two names. *)
Lemma differing_nil x l :
  composeDifferingNeighborhoodNamesSlice x l = [] ↔ ∀ o, o ∈ l → Name o = x.
Proof.
  unfold composeDifferingNeighborhoodNamesSlice. induction l as [|y l IH].
  - split; [|done]. intros _ o Ho. by apply elem_of_nil in Ho.
  - rewrite filter_cons. case_decide as Hd.
    + split; [done|]. intros H. destruct Hd. symmetry. apply H. by left.
    + split.
      * intros E o [->|Ho]%elem_of_cons; [|by apply IH].
        destruct (decide (x = Name y)) as [->|Hne]; [done|by destruct Hd].
      * intros H. apply IH. intros o Ho. apply H. by right.
Qed.

Lemma findLeast_one_name l w x :
  (∀ o, o ∈ l → Name o = x) →
  findNeighborhoodWithLeastDistanceToAllOtherNeighborhoods R db l w =
  (Returned (default zeroNeighborhood (head l), None), w).
Proof.
  intros Hone. pose proof (findLeast_cases l w) as P.
  destruct (findNeighborhoodWithLeastDistanceToAllOtherNeighborhoods _ _ _ _)
    as [[result|reason] w'].
  - by destruct P as (-> & -> & _).
  - destruct P as [_ X]. apply Exists_exists in X as (n & Hn & X).
    destruct X. apply differing_nil. intros o Ho.
    by rewrite (Hone o Ho), (Hone n Hn).
Qed.

Lemma findLeast_two_names l w n o :
  n ∈ l → o ∈ l → Name n ≠ Name o →
  (findNeighborhoodWithLeastDistanceToAllOtherNeighborhoods R db l w).1 =
  Panicked "assignment to entry in nil map".
Proof.
  intros Hn Ho Hne. pose proof (findLeast_cases l w) as P.
  destruct (findNeighborhoodWithLeastDistanceToAllOtherNeighborhoods _ _ _ _)
    as [[result|reason] w'].
  - destruct P as (_ & _ & F). rewrite Forall_forall in F.
    specialize (F n Hn). rewrite differing_nil in F. destruct Hne.
    symmetry. by apply F.
  - by destruct P as [-> _].
Qed.

(** ** The whole call *)

(** [FindBestNeighborhood] is the tie-break on the records of the names
    that the frequency step returned. *)
Lemma FindBest_findLeast neighborhoods w :
  ∃ names,
    findNeighborhoodWithHighestOccurrence R neighborhoods = Returned (names, None) ∧
    FindBestNeighborhood R db neighborhoods w =
    findNeighborhoodWithLeastDistanceToAllOtherNeighborhoods R db
      (highestOccurrence names neighborhoods) w.
Proof.
  destruct (highestOccurrence_returns neighborhoods) as [names E].
  exists names. split; [done|].
  unfold FindBestNeighborhood. rewrite E. unfold_M.
  pose proof (findLeast_cases (highestOccurrence names neighborhoods) w) as P.
  destruct (findNeighborhoodWithLeastDistanceToAllOtherNeighborhoods _ _ _ _)
    as [[result|reason] w']; [|done].
  destruct P as (Hr & Hw & _). by subst.
Qed.

Lemma FindBest_graphOfCall neighborhoods w :
  FindBestNeighborhood R db neighborhoods w =
  match graphOfCall R db neighborhoods w with
  | (Returned (graph, _), w') => (leastOf R graph, w')
  | (Panicked reason, w') => (Panicked reason, w')
  end.
Proof.
  destruct (FindBest_findLeast neighborhoods w) as (names & E & ->).
  unfold graphOfCall. rewrite E. unfold_M. apply findLeast_leastOf.
Qed.

(** ** The cache key *)

Lemma sort_Strings_pair a b : sort_Strings [a; b] = sort_Strings [b; a].
Proof.
  unfold sort_Strings. cbn. unfold String.ltb.
  rewrite (String.compare_antisym a b).
  destruct (String.compare b a) eqn:E; cbn; try done.
  apply String.compare_eq_iff in E. by subst.
Qed.

Lemma cacheKey_symmetric a b :
  generateNeighborhoodCacheKey a b = generateNeighborhoodCacheKey b a.
Proof. unfold generateNeighborhoodCacheKey. by rewrite sort_Strings_pair. Qed.

(** ** One call of the provider for each key *)

Lemma resolveDistance_memo distanceCache n o w :
  memoInv distanceCache w →
  ∃ d distanceCache' w',
    resolveDistance db distanceCache n o w = (Returned (d, distanceCache'), w') ∧
    memoInv distanceCache' w'.
Proof.
  intros [Hnodup Hin].
  destruct (distanceCache !! generateNeighborhoodCacheKey (Name n) (Name o))
    as [d|] eqn:E.
  - exists d, distanceCache, w. by rewrite (resolveDistance_hit _ _ _ _ d E).
  - eexists _, _, _. split; [by apply resolveDistance_miss|].
    unfold memoInv. rewrite fmap_app. cbn [fmap list_fmap]. split.
    + apply NoDup_app. split; [done|]. split; [|apply NoDup_singleton].
      intros k Hk [->|[]%elem_of_nil]%elem_of_cons.
      destruct (Hin _ Hk) as [d Hd]. unfold callKey in Hd. simpl in Hd. congruence.
    + intros k [Hk|[->|[]%elem_of_nil]%elem_of_cons]%elem_of_app.
      * destruct (decide (generateNeighborhoodCacheKey (Name n) (Name o) = k)) as [->|Hne].
        -- rewrite lookup_insert_eq. by eexists.
        -- rewrite lookup_insert_ne by done. by apply Hin.
      * unfold callKey. simpl. rewrite lookup_insert_eq. by eexists.
Qed.

Lemma addEdge_memo n graph distanceCache o w :
  memoInv distanceCache w → memoPost (addEdge db n (graph, distanceCache) o w).
Proof.
  intros Hinv. unfold addEdge.
  destruct (resolveDistance_memo distanceCache n o w Hinv) as (d & c' & w' & E & Hinv').
  unfold_M. rewrite E.
  destruct (appendEdge graph (Name n) _) as [graph'|reason]; simpl; [done|].
  by destruct Hinv'.
Qed.

Lemma addEdges_memo n remaining : ∀ graph distanceCache w,
  memoInv distanceCache w → memoPost (addEdges db n (graph, distanceCache) remaining w).
Proof.
  induction remaining as [|o rest IH]; intros graph distanceCache w Hinv; [done|].
  rewrite addEdges_cons. pose proof (addEdge_memo n graph distanceCache o w Hinv) as P.
  destruct (addEdge _ _ _ _ _) as [[[graph' cache']|reason] w']; [|done].
  by apply IH.
Qed.

Lemma buildGraph_memo all todo : ∀ graph distanceCache w,
  memoInv distanceCache w → memoPost (buildGraph db all (graph, distanceCache) todo w).
Proof.
  induction todo as [|n rest IH]; intros graph distanceCache w Hinv; [done|].
  rewrite buildGraph_cons.
  pose proof (addEdges_memo n (composeDifferingNeighborhoodNamesSlice (Name n) all)
                (mkGraph (nodes graph ++ [n]) (edges graph)) distanceCache w Hinv) as P.
  change (addNode db all (graph, distanceCache) n w) with
    (addEdges db n (mkGraph (nodes graph ++ [n]) (edges graph), distanceCache)
       (composeDifferingNeighborhoodNamesSlice (Name n) all) w).
  destruct (addEdges _ _ _ _ _) as [[[graph' cache']|reason] w']; [|done].
  by apply IH.
Qed.

Lemma memoInv_empty : memoInv ∅ [].
Proof. split; [apply NoDup_nil_2|]. by intros k Hk%elem_of_nil. Qed.

Lemma memoPost_pairs res : memoPost res → NoDup (unorderedPair <$> res.2).
Proof.
  intros P.
  assert (NoDup (callKey <$> res.2)) as H.
  { destruct res as [[[graph cache]|reason] w]; simpl in *; [by destruct P|done]. }
  assert (callKey <$> res.2 = (λ p, md5_hex (String.concat "" p)) <$> (unorderedPair <$> res.2))
    as E by (by rewrite <- list_fmap_compose).
  rewrite E in H. by apply NoDup_fmap_1 in H.
Qed.

(** ** Edges go from a node to itself *)

Lemma appendEdge_edgeIn graph key edge graph' e :
  appendEdge graph key edge = Returned graph' →
  edgeIn graph' e → e = edge ∨ edgeIn graph e.
Proof.
  unfold appendEdge. destruct (edges graph) as [m|] eqn:Em; [|done].
  intros [= <-] (m' & k & es & [= <-] & Hk & He). simpl in *.
  destruct (decide (key = k)) as [->|Hne].
  - rewrite lookup_insert_eq in Hk. injection Hk as <-.
    apply elem_of_app in He as [He|He%list_elem_of_singleton]; [|by left].
    right. destruct (m !! k) as [es|] eqn:Ek; [|by apply elem_of_nil in He].
    by exists m, k, es.
  - rewrite lookup_insert_ne in Hk by done. right. by exists m, k, es.
Qed.

Lemma addEdge_selfLoops n graph distanceCache o w graph' cache' w' :
  (∀ e, edgeIn graph e → selfLoop e) →
  addEdge db n (graph, distanceCache) o w = (Returned (graph', cache'), w') →
  ∀ e, edgeIn graph' e → selfLoop e.
Proof.
  intros Hself. unfold addEdge.
  destruct (resolveDistance_returns distanceCache n o w) as (d & c1 & w1 & E).
  unfold_M. rewrite E.
  destruct (appendEdge graph (Name n) _) as [graph1|reason] eqn:Ea; [|done].
  intros [= <- <- <-] e He.
  destruct (appendEdge_edgeIn _ _ _ _ _ Ea He) as [->|Hold]; [done|by apply Hself].
Qed.

Lemma addEdges_selfLoops n remaining : ∀ graph distanceCache w graph' cache' w',
  (∀ e, edgeIn graph e → selfLoop e) →
  addEdges db n (graph, distanceCache) remaining w = (Returned (graph', cache'), w') →
  ∀ e, edgeIn graph' e → selfLoop e.
Proof.
  induction remaining as [|o rest IH]; intros graph distanceCache w graph' cache' w' Hself.
  - by intros [= <- <- <-].
  - rewrite addEdges_cons.
    destruct (addEdge _ _ _ _ _) as [[[graph1 cache1]|reason] w1] eqn:E1; [|done].
    apply IH. by eapply addEdge_selfLoops.
Qed.

Lemma buildGraph_selfLoops all todo : ∀ graph distanceCache w graph' cache' w',
  (∀ e, edgeIn graph e → selfLoop e) →
  buildGraph db all (graph, distanceCache) todo w = (Returned (graph', cache'), w') →
  ∀ e, edgeIn graph' e → selfLoop e.
Proof.
  induction todo as [|n rest IH]; intros graph distanceCache w graph' cache' w' Hself.
  - by intros [= <- <- <-].
  - rewrite buildGraph_cons.
    destruct (addNode _ _ _ _ _) as [[[graph1 cache1]|reason] w1] eqn:E1; [|done].
    apply IH. eapply addEdges_selfLoops; [|exact E1].
    intros e (m & k & es & Hm & Hk & He). apply Hself. by exists m, k, es.
Qed.

(** ** Building the graph on an allocated map *)

Lemma addEdge_allocated n graph distanceCache o w :
  is_Some (edges graph) →
  ∃ graph' cache' w',
    addEdge db n (graph, distanceCache) o w = (Returned (graph', cache'), w') ∧
    is_Some (edges graph').
Proof.
  intros [m Hm]. unfold addEdge.
  destruct (resolveDistance_returns distanceCache n o w) as (d & c1 & w1 & E).
  unfold_M. rewrite E. unfold appendEdge. rewrite Hm.
  eexists _, _, _. split; [done|]. by eexists.
Qed.

Lemma addEdges_allocated n remaining : ∀ graph distanceCache w,
  is_Some (edges graph) →
  ∃ graph' cache' w',
    addEdges db n (graph, distanceCache) remaining w = (Returned (graph', cache'), w') ∧
    is_Some (edges graph').
Proof.
  induction remaining as [|o rest IH]; intros graph distanceCache w Hsome.
  - by exists graph, distanceCache, w.
  - rewrite addEdges_cons.
    destruct (addEdge_allocated n graph distanceCache o w Hsome)
      as (graph1 & cache1 & w1 & -> & Hsome1).
    by apply IH.
Qed.

(** On an allocated map the loop always returns. *)
Lemma buildGraph_allocated all todo : ∀ graph distanceCache w,
  is_Some (edges graph) →
  ∃ graph' cache' w',
    buildGraph db all (graph, distanceCache) todo w = (Returned (graph', cache'), w') ∧
    is_Some (edges graph').
Proof.
  induction todo as [|n rest IH]; intros graph distanceCache w Hsome.
  - by exists graph, distanceCache, w.
  - rewrite buildGraph_cons.
    destruct (addEdges_allocated n (composeDifferingNeighborhoodNamesSlice (Name n) all)
                (mkGraph (nodes graph ++ [n]) (edges graph)) distanceCache w Hsome)
      as (graph1 & cache1 & w1 & E & Hsome1).
    change (addNode db all (graph, distanceCache) n w) with
      (addEdges db n (mkGraph (nodes graph ++ [n]) (edges graph), distanceCache)
         (composeDifferingNeighborhoodNamesSlice (Name n) all) w).
    rewrite E. by apply IH.
Qed.

Lemma allEdges_edgeIn graph x :
  x ∈ allEdges R graph →
  ∃ e, edgeIn graph e ∧
       x = (Name (sourceNode e), Name (targetNode e), distanceInMeters e).
Proof.
  unfold allEdges. destruct (edges graph) as [m|] eqn:Em; [|by intros ?%elem_of_nil].
  intros ([key es] & Hx & Hentry)%list_elem_of_bind.
  apply list_elem_of_fmap in Hx as (e & -> & He).
  rewrite (range_order_perm R) in Hentry. apply elem_of_map_to_list in Hentry.
  exists e. split; [|done]. by exists m, key, es.
Qed.

(** From an allocated, empty map the loop returns a graph in which every
    edge has the same name at both ends. *)
Lemma buildGraph_only_selfLoops all w :
  ∃ graph cache w',
    buildGraph db all (allocatedGraph, ∅) all w = (Returned (graph, cache), w') ∧
    Forall (λ x, x.1.1 = x.1.2) (allEdges R graph).
Proof.
  destruct (buildGraph_allocated all all allocatedGraph ∅ w)
    as (graph & cache & w' & E & _); [by eexists|].
  exists graph, cache, w'. split; [done|].
  apply Forall_forall. intros x (e & He & ->)%allEdges_edgeIn. simpl.
  f_equal. apply (buildGraph_selfLoops all all allocatedGraph ∅ w graph cache w'); try done.
  intros e' (m & key & es & [= <-] & Hkey & _). by rewrite lookup_empty in Hkey.
Qed.

(** ** Every order of ranging over the table *)

Lemma highest_any_order neighborhoods (check : outcome (list string * option error) → bool) :
  forallb (λ order, check (highestFrom order))
          (permutations (map_to_list (frequencyTable neighborhoods))) = true →
  check (findNeighborhoodWithHighestOccurrence R neighborhoods) = true.
Proof.
  intros Hall. rewrite forallb_forall in Hall.
  change (findNeighborhoodWithHighestOccurrence R neighborhoods) with
    (highestFrom (range_order R (frequencyTable neighborhoods))).
  apply Hall, list_elem_of_In, permutations_Permutation.
  symmetry. apply range_order_perm.
Qed.

Lemma FindBest_with_names neighborhoods names w :
  findNeighborhoodWithHighestOccurrence R neighborhoods = Returned (names, None) →
  FindBestNeighborhood R db neighborhoods w =
  findNeighborhoodWithLeastDistanceToAllOtherNeighborhoods R db
    (highestOccurrence names neighborhoods) w.
Proof.
  intros E. destruct (FindBest_findLeast neighborhoods w) as (names' & E' & ->).
  rewrite E in E'. by injection E' as <-.
Qed.

Lemma highestOccurrence_elem names neighborhoods x :
  x ∈ names → x ∈ Name <$> neighborhoods →
  ∃ n, n ∈ highestOccurrence names neighborhoods ∧ Name n = x.
Proof.
  intros Hx (n & -> & Hn)%list_elem_of_fmap. exists n. split; [|done].
  unfold highestOccurrence. apply list_elem_of_bind. exists (Name n).
  split; [|done]. by apply list_elem_of_filter.
Qed.

(** Two names from the frequency step are enough for the panic. *)
Lemma FindBest_two_names neighborhoods w :
  twoNamed neighborhoods (findNeighborhoodWithHighestOccurrence R neighborhoods) = true →
  (FindBestNeighborhood R db neighborhoods w).1 =
  Panicked "assignment to entry in nil map".
Proof.
  intros Htwo.
  destruct (findNeighborhoodWithHighestOccurrence R neighborhoods)
    as [[[|n1 [|n2 rest]] [e|]]|reason] eqn:E; try done.
  simpl in Htwo. apply bool_decide_eq_true in Htwo as (Hne & H1 & H2).
  rewrite (FindBest_with_names _ _ _ E).
  destruct (highestOccurrence_elem (n1 :: n2 :: rest) neighborhoods n1)
    as (a & Ha & Na); [by left|done|].
  destruct (highestOccurrence_elem (n1 :: n2 :: rest) neighborhoods n2)
    as (b & Hb & Nb); [by right; left|done|].
  apply (findLeast_two_names _ _ a b); congruence.
Qed.

Lemma FindBest_panics_any_order neighborhoods w :
  forallb (λ order, twoNamed neighborhoods (highestFrom order))
          (permutations (map_to_list (frequencyTable neighborhoods))) = true →
  (FindBestNeighborhood R db neighborhoods w).1 =
  Panicked "assignment to entry in nil map".
Proof. intros Hall. by apply FindBest_two_names, highest_any_order. Qed.

(** A call that returns reports no error, made no call of the provider,
    and returns the first of the records it built the graph from. *)
Lemma FindBest_returned neighborhoods w n e w' :
  FindBestNeighborhood R db neighborhoods w = (Returned (n, e), w') →
  e = None ∧ w' = w ∧
  ∃ names,
    findNeighborhoodWithHighestOccurrence R neighborhoods = Returned (names, None) ∧
    n = default zeroNeighborhood (head (highestOccurrence names neighborhoods)).
Proof.
  destruct (FindBest_findLeast neighborhoods w) as (names & E & ->).
  intros Hret.
  pose proof (findLeast_cases (highestOccurrence names neighborhoods) w) as P.
  rewrite Hret in P. destruct P as ([= -> ->] & -> & _).
  split; [done|]. split; [done|]. by exists names.
Qed.

End Facts.

(** ** Two runs *)



(** A pair that was looked up is in the cache under both orders of its
    names. *)
Lemma resolveDistance_again (db : DistanceQuery) distanceCache n o w :
  match resolveDistance db distanceCache n o w with
  | (Returned (d, distanceCache'), w') =>
      resolveDistance db distanceCache' n o w' = (Returned (d, distanceCache'), w') ∧
      resolveDistance db distanceCache' o n w' = (Returned (d, distanceCache'), w')
  | (Panicked _, _) => False
  end.
Proof.
  destruct (distanceCache !! generateNeighborhoodCacheKey (Name n) (Name o))
    as [d|] eqn:E.
  - rewrite (resolveDistance_hit db _ _ _ _ d E). split.
    + by apply resolveDistance_hit.
    + apply resolveDistance_hit. by rewrite cacheKey_symmetric.
  - rewrite (resolveDistance_miss db _ _ _ _ E). split.
    + apply resolveDistance_hit. by rewrite lookup_insert_eq.
    + apply resolveDistance_hit. by rewrite cacheKey_symmetric, lookup_insert_eq.
Qed.

(** ** The digest *)

Example md5_hex_empty : md5_hex "" = "d41d8cd98f00b204e9800998ecf8427e".
Proof. vm_compute. reflexivity. Qed.

Example md5_hex_abc : md5_hex "abc" = "900150983cd24fb0d6963f7d28e17f72".
Proof. vm_compute. reflexivity. Qed.

Example md5_hex_two_blocks :
  md5_hex "The quick brown fox jumps over the lazy dog, twice over the lazy dog"
  = "00dd19f2165f68928efb6dc9dca02773".
Proof. vm_compute. reflexivity. Qed.

Example cacheKey_AB : generateNeighborhoodCacheKey "B" "A" = md5_hex "AB".
Proof. vm_compute. reflexivity. Qed.

(** ** The two scenarios of the specification *)

(** With two names tying above a third, the frequency step returns both
    names and the call panics, whatever the order of ranging. *)
Example twoWayTie_panics (R : MapRange) (db : DistanceQuery) :
  (FindBestNeighborhood R db twoWayTie []).1 = Panicked "assignment to entry in nil map".
Proof. apply FindBest_panics_any_order. vm_compute. reflexivity. Qed.

(** Had the edge map been allocated, the sums of the three-way tie would
    be 200 for [A] and 400 for [B] and [C], and [A] would be chosen: the
    sum of a node starts from the zero value of a missing key. *)
Example threeWay_on_allocated_map :
  match buildGraph threeWay [A; B; C] (allocatedGraph, ∅) [A; B; C] [] with
  | (Returned (graph, _), w) =>
      foldl sumEdges ∅ (rangeEdges ascending graph) =
      {[ "A" := 200%float; "B" := 400%float; "C" := 400%float ]} ∧
      findMinDistanceBetweenNodes ascending graph = Returned (A, None) ∧
      call_names <$> w = [("A", "B"); ("A", "C"); ("B", "C")]
  | (Panicked _, _) => False
  end.
Proof. vm_compute. by repeat split. Qed.

(** * The claims *)

(** C1 (fails on the code). A tie of three names, each with three records,
    with the distances A-B = 100, A-C = 100 and B-C = 300: the claim asks
    for A, whose distance sum 200 is the least. Whatever the order of
    ranging over the frequency table, the call ends in the panic of the
    write to the nil edge map. *)
Theorem C1_three_way_tie_panics (R : MapRange) :
  (FindBestNeighborhood R threeWay threeWayTie []).1 =
  Panicked "assignment to entry in nil map".
Proof. apply FindBest_panics_any_order. vm_compute. reflexivity. Qed.

(** C2 (fails on the code). [A] and [B] occur once each, so both attain
    the highest count; whatever the order of ranging, the frequency step
    returns one name only. Under ascending order the table of
    [A; A; B; C] gives [C] and [A], and [C] is below the highest count.
    On every input the step returns at most half, rounded up, of the
    different names, however many of them tie. *)
Theorem C2_tie_of_two_returns_one_name (R : MapRange) :
  frequencyTable [A; B] = {[ "A" := 1; "B" := 1 ]} ∧
  (∃ name, findNeighborhoodWithHighestOccurrence R [A; B] = Returned ([name], None)) ∧
  findNeighborhoodWithHighestOccurrence ascending [A; A; B; C] =
  Returned (["C"; "A"], None) ∧
  ∀ neighborhoods,
    match findNeighborhoodWithHighestOccurrence R neighborhoods with
    | Returned (names, _) =>
        (2 * length names ≤ size (frequencyTable neighborhoods) + 1)%nat
    | Panicked _ => False
    end.
Proof.
  split; [by vm_compute|]. split; [|split; [by vm_compute|]].
  - assert (oneNamed (findNeighborhoodWithHighestOccurrence R [A; B]) = true) as H.
    { apply highest_any_order. vm_compute. reflexivity. }
    destruct (findNeighborhoodWithHighestOccurrence R [A; B])
      as [[[|name [|]] [|]]|]; try done.
    by exists name.
  - apply highestOccurrence_half.
Qed.

(** C3 (fails on the code). On the empty list the call returns the zero
    [Neighborhood] with a nil error; it does not panic. *)
Theorem C3_empty_input_returns_zero_value (R : MapRange) (db : DistanceQuery) (w : World) :
  FindBestNeighborhood R db [] w = (Returned (zeroNeighborhood, None), w).
Proof.
  rewrite (FindBest_with_names R db [] [] w (highestOccurrence_empty R)).
  apply (findLeast_one_name R db [] w ""). by intros o Ho%elem_of_nil.
Qed.

(** C4 (fails on the code). On three records of three names the call
    panics before any edge is stored. Run from an allocated edge map, the
    same loop stores six edges, each from a node to itself; and so for
    every list of records: all the edges it stores have the same name at
    both ends, no edge joins two different nodes. *)
Theorem C4_edges_are_self_loops (R : MapRange) (db : DistanceQuery) :
  (FindBestNeighborhood R db [A; B; C] []).1 = Panicked "assignment to entry in nil map" ∧
  match buildGraph threeWay [A; B; C] (allocatedGraph, ∅) [A; B; C] [] with
  | (Returned (graph, _), _) =>
      nodes graph = [A; B; C] ∧
      allEdges ascending graph =
      [("A", "A", 100%float); ("A", "A", 100%float);
       ("B", "B", 100%float); ("B", "B", 300%float);
       ("C", "C", 100%float); ("C", "C", 300%float)]
  | (Panicked _, _) => False
  end ∧
  ∀ neighborhoods w,
    ∃ graph cache w',
      buildGraph db neighborhoods (allocatedGraph, ∅) neighborhoods w =
      (Returned (graph, cache), w') ∧
      Forall (λ x, x.1.1 = x.1.2) (allEdges R graph).
Proof.
  split; [|split].
  - apply FindBest_panics_any_order. vm_compute. reflexivity.
  - vm_compute. by split.
  - apply buildGraph_only_selfLoops.
Qed.

(** C5 (fails on the code). Three records of three names tie; whatever
    the order of ranging and whatever the provider answers, the call stops
    with the panic of a write to the nil edge map. *)
Theorem C5_nil_edge_map_panics (R : MapRange) (db : DistanceQuery) :
  edges zeroGraph = None ∧
  (FindBestNeighborhood R db [A; B; C] []).1 = Panicked "assignment to entry in nil map".
Proof.
  split; [done|]. apply FindBest_panics_any_order. vm_compute. reflexivity.
Qed.

(** C6 (fails on the code). With a provider that fails, the lookup of the
    pair A, B drops the error, takes the distance to be 0 and stores that
    0 in the cache; the call then panics and returns no error. *)
Theorem C6_provider_failure_is_swallowed (R : MapRange) :
  getDistanceBetweenTwoCoordinates failing [Longitude A; Latitude A]
    [Longitude B; Latitude B] = Returned (0%float, Some ScanError) ∧
  resolveDistance failing ∅ A B [] =
  (Returned (0%float, {[generateNeighborhoodCacheKey "A" "B" := 0%float]}),
   [mkCall ("A", "B") [Longitude A; Latitude A] [Longitude B; Latitude B]]) ∧
  (FindBestNeighborhood R failing [A; B; C] []).1 =
  Panicked "assignment to entry in nil map".
Proof.
  split; [done|]. split.
  - by rewrite resolveDistance_miss.
  - apply FindBest_panics_any_order. vm_compute. reflexivity.
Qed.

(** C7 (fails on the code). [A] occurs twice, [B] and [C] once. When the
    table is ranged over in ascending order the frequency step returns
    [C] and [A], and the call panics; in descending order it returns [A]. *)
Theorem C7_dominating_name_panics (db : DistanceQuery) :
  frequencyTable [A; A; B; C] = {[ "A" := 2; "B" := 1; "C" := 1 ]} ∧
  (FindBestNeighborhood ascending db [A; A; B; C] []).1 =
  Panicked "assignment to entry in nil map" ∧
  FindBestNeighborhood descending db [A; A; B; C] [] = (Returned (A, None), []).
Proof.
  split; [|split].
  - by vm_compute.
  - apply FindBest_two_names. vm_compute. reflexivity.
  - rewrite (FindBest_with_names descending db _ ["A"]) by (vm_compute; reflexivity).
    change (highestOccurrence ["A"] [A; A; B; C]) with [A; A].
    apply (findLeast_one_name descending db [A; A] [] "A").
    by intros o [->|[->|Ho%elem_of_nil]%elem_of_cons]%elem_of_cons.
Qed.

(** C8. The cache key of a pair of names does not depend on their order.
    Within one call of [FindBestNeighborhood], and in the loop that builds
    the graph from any graph with an empty cache, no two calls of the
    provider are for the same unordered pair of names; and once a pair has
    been looked up, a lookup of it under either order of its names is
    answered from the cache, with no call of the provider. *)
Theorem C8_cache_key_symmetric_and_memoized (R : MapRange) (db : DistanceQuery) :
  (∀ a b, generateNeighborhoodCacheKey a b = generateNeighborhoodCacheKey b a) ∧
  (∀ neighborhoods,
     NoDup (unorderedPair <$> (FindBestNeighborhood R db neighborhoods []).2)) ∧
  (∀ graph neighborhoods,
     NoDup (unorderedPair <$>
              (buildGraph db neighborhoods (graph, ∅) neighborhoods []).2)) ∧
  (∀ distanceCache n o w,
     match resolveDistance db distanceCache n o w with
     | (Returned (d, distanceCache'), w') =>
         resolveDistance db distanceCache' n o w' = (Returned (d, distanceCache'), w') ∧
         resolveDistance db distanceCache' o n w' = (Returned (d, distanceCache'), w')
     | (Panicked _, _) => False
     end).
Proof.
  split; [apply cacheKey_symmetric|]. split; [|split].
  - intros neighborhoods.
    assert ((FindBestNeighborhood R db neighborhoods []).2 =
            (graphOfCall R db neighborhoods []).2) as ->.
    { rewrite FindBest_graphOfCall.
      by destruct (graphOfCall R db neighborhoods []) as [[[graph cache]|reason] w]. }
    apply memoPost_pairs. unfold graphOfCall.
    destruct (highestOccurrence_returns R neighborhoods) as [names ->].
    unfold_M. apply buildGraph_memo, memoInv_empty.
  - intros graph neighborhoods. apply memoPost_pairs, buildGraph_memo, memoInv_empty.
  - apply resolveDistance_again.
Qed.

(** C9, as stated, fails: of two records named [A] both become nodes. *)
Lemma C9_counterexample :
  ¬ (∀ R db neighborhoods graph cache w,
       graphOfCall R db neighborhoods [] = (Returned (graph, cache), w) →
       NoDup (Name <$> nodes graph)).
Proof.
  intros H.
  specialize (H ascending failing [A; A'] (mkGraph [A; A'] None) ∅ []).
  assert (NoDup (Name <$> [A; A'])) as Hnodup by (apply H; by vm_compute).
  apply NoDup_cons in Hnodup as [Hnotin _]. apply Hnotin. by left.
Qed.

(** C9, amended. The records that pass the frequency filter are not
    deduplicated: whenever the graph has been built, its nodes are, for
    each name the frequency step returned and in that order, all the
    records of the input with that name, in the order of the input. *)
Theorem C9_nodes_are_all_surviving_records (R : MapRange) (db : DistanceQuery)
  neighborhoods w graph cache w' :
  graphOfCall R db neighborhoods w = (Returned (graph, cache), w') →
  ∃ names,
    findNeighborhoodWithHighestOccurrence R neighborhoods = Returned (names, None) ∧
    nodes graph =
    names ≫= (λ name, filter (λ neighborhood, name = Name neighborhood) neighborhoods).
Proof.
  unfold graphOfCall.
  destruct (highestOccurrence_returns R neighborhoods) as [names E]. rewrite E.
  unfold_M. intros Hbuilt. exists names. split; [done|].
  pose proof (buildGraph_nil_map db (highestOccurrence names neighborhoods)
                (highestOccurrence names neighborhoods) zeroGraph ∅ w eq_refl) as P.
  rewrite Hbuilt in P. by destruct P as (-> & _).
Qed.

Lemma C9_nodes_witness :
  graphOfCall ascending failing [A; A'] [] = (Returned (mkGraph [A; A'] None, ∅), []) ∧
  ∃ names,
    findNeighborhoodWithHighestOccurrence ascending [A; A'] = Returned (names, None) ∧
    nodes (mkGraph [A; A'] None) =
    names ≫= (λ name, filter (λ neighborhood, name = Name neighborhood) [A; A']).
Proof.
  split; [vm_compute; reflexivity|].
  apply (C9_nodes_are_all_surviving_records ascending failing [A; A'] []
           (mkGraph [A; A'] None) ∅ []).
  vm_compute; reflexivity.
Defined.




(** * Further properties *)

(** ** The order of [float64] *)

Lemma SFltb_irrefl x : SFltb x x = false.
Proof.
  unfold SFltb, SFcompare. destruct x as [s|s| |s m e]; try done; try (by destruct s).
  destruct s; cbn; by rewrite Z.compare_refl, Pos.compare_cont_refl.
Qed.

Lemma lex_trans e1 m1 e2 m2 e3 m3 :
  match Z.compare e1 e2 with Lt => Lt | Gt => Gt | Eq => Pos.compare_cont Eq m1 m2 end = Lt →
  match Z.compare e2 e3 with Lt => Lt | Gt => Gt | Eq => Pos.compare_cont Eq m2 m3 end = Lt →
  match Z.compare e1 e3 with Lt => Lt | Gt => Gt | Eq => Pos.compare_cont Eq m1 m3 end = Lt.
Proof.
  change (Pos.compare_cont Eq m1 m2) with (Pos.compare m1 m2).
  change (Pos.compare_cont Eq m2 m3) with (Pos.compare m2 m3).
  change (Pos.compare_cont Eq m1 m3) with (Pos.compare m1 m3).
  destruct (Z.compare_spec e1 e2), (Z.compare_spec e2 e3), (Z.compare_spec e1 e3);
    try discriminate; try lia; intros L1 L2; try reflexivity.
  rewrite Pos.compare_lt_iff in *. by eapply Pos.lt_trans.
Qed.

Lemma lex_trans_opp e1 m1 e2 m2 e3 m3 :
  match Z.compare e1 e2 with
  | Lt => Gt | Gt => Lt | Eq => CompOpp (Pos.compare_cont Eq m1 m2) end = Lt →
  match Z.compare e2 e3 with
  | Lt => Gt | Gt => Lt | Eq => CompOpp (Pos.compare_cont Eq m2 m3) end = Lt →
  match Z.compare e1 e3 with
  | Lt => Gt | Gt => Lt | Eq => CompOpp (Pos.compare_cont Eq m1 m3) end = Lt.
Proof.
  change (Pos.compare_cont Eq m1 m2) with (Pos.compare m1 m2).
  change (Pos.compare_cont Eq m2 m3) with (Pos.compare m2 m3).
  change (Pos.compare_cont Eq m1 m3) with (Pos.compare m1 m3).
  destruct (Z.compare_spec e1 e2), (Z.compare_spec e2 e3), (Z.compare_spec e1 e3);
    try discriminate; try lia; intros L1 L2; try reflexivity.
  destruct (Pos.compare_spec m1 m2) as [|Ha|Ha], (Pos.compare_spec m2 m3) as [|Hb|Hb],
    (Pos.compare_spec m1 m3) as [|Hc|Hc]; try discriminate; try reflexivity; subst.
  all: try (by apply Pos.lt_irrefl in Hb).
  all: try (by destruct (Pos.lt_irrefl m3); eapply Pos.lt_trans).
  all: try (by destruct (Pos.lt_irrefl m1); eapply Pos.lt_trans; [|eapply Pos.lt_trans]).
Qed.

Lemma SFltb_trans x y z : SFltb x y = true → SFltb y z = true → SFltb x z = true.
Proof.
  unfold SFltb, SFcompare.
  destruct x as [sx|sx| |sx mx ex], y as [sy|sy| |sy my ey], z as [sz|sz| |sz mz ez];
    try discriminate; try (destruct sx, sy, sz; (discriminate || reflexivity || idtac)).
  all: intros H1 H2.
  - rewrite (lex_trans_opp ex mx ey my ez mz); try reflexivity.
    + destruct (match (ex ?= ey)%Z with Lt => Gt | Gt => Lt | Eq => _ end);
        (reflexivity || discriminate).
    + destruct (match (ey ?= ez)%Z with Lt => Gt | Gt => Lt | Eq => _ end);
        (reflexivity || discriminate).
  - rewrite (lex_trans ex mx ey my ez mz); try reflexivity.
    + destruct (match (ex ?= ey)%Z with Lt => Lt | Gt => Gt | Eq => _ end);
        (reflexivity || discriminate).
    + destruct (match (ey ?= ez)%Z with Lt => Lt | Gt => Gt | Eq => _ end);
        (reflexivity || discriminate).
Qed.

Lemma float_ltb_irrefl x : PrimFloat.ltb x x = false.
Proof. rewrite ltb_spec. apply SFltb_irrefl. Qed.

Lemma float_ltb_trans x y z :
  PrimFloat.ltb x y = true → PrimFloat.ltb y z = true → PrimFloat.ltb x z = true.
Proof. rewrite !ltb_spec. apply SFltb_trans. Qed.

Lemma SFcompare_finite_Eq s1 m1 e1 s2 m2 e2 :
  SFcompare (S754_finite s1 m1 e1) (S754_finite s2 m2 e2) = Some Eq →
  s1 = s2 ∧ m1 = m2 ∧ e1 = e2.
Proof.
  unfold SFcompare.
  change (Pos.compare_cont Eq m1 m2) with (Pos.compare m1 m2).
  destruct s1, s2; try discriminate;
    destruct (Z.compare_spec e1 e2); try discriminate;
    destruct (Pos.compare_spec m1 m2); try discriminate; by subst.
Qed.

Lemma SF_eq_lt_trans x y z :
  SFcompare x y = Some Eq → SFltb y z = true → SFltb x z = true.
Proof.
  destruct x as [sx|sx| |sx mx ex], y as [sy|sy| |sy my ey];
    try (by intros (-> & -> & ->)%SFcompare_finite_Eq);
    unfold SFltb; simpl; try discriminate;
    try (destruct sx; discriminate); try (destruct sy; discriminate).
  - by destruct z.
  - by destruct sx, sy, z.
Qed.

(** [x <= y] and [y < z] give [x < z], also for infinities and zeros of
    either sign; with a NaN neither premise holds. *)
Lemma float_leb_ltb_trans x y z :
  PrimFloat.leb x y = true → PrimFloat.ltb y z = true → PrimFloat.ltb x z = true.
Proof.
  rewrite leb_spec, !ltb_spec. unfold SFleb.
  destruct (SFcompare (Prim2SF x) (Prim2SF y)) as [[| |]|] eqn:E; try done; intros _.
  - by apply SF_eq_lt_trans.
  - apply SFltb_trans. unfold SFltb. by rewrite E.
Qed.

(** ** The frequency table *)

Lemma int_wrap_small z : - 2 ^ 63 ≤ z < 2 ^ 63 → int_wrap z = z.
Proof. intros Hz. unfold int_wrap. rewrite Z.mod_small; lia. Qed.

Lemma frequencyTable_snoc l n :
  frequencyTable (l ++ [n]) = countNeighborhood (frequencyTable l) n.
Proof. unfold frequencyTable. by rewrite foldl_app. Qed.

Lemma occurrences_snoc x l n :
  occurrences x (l ++ [n]) =
  (occurrences x l + if decide (Name n = x) then 1 else 0)%nat.
Proof.
  unfold occurrences. rewrite filter_app, length_app, filter_cons, filter_nil.
  by case_decide.
Qed.

Lemma occurrences_le x l : (occurrences x l ≤ length l)%nat.
Proof. apply length_filter. Qed.

(** The names in the table are the names of the records. *)
Lemma frequencyTable_is_Some neighborhoods x :
  is_Some (frequencyTable neighborhoods !! x) ↔ x ∈ Name <$> neighborhoods.
Proof.
  induction neighborhoods as [|n l IH] using rev_ind.
  - unfold frequencyTable. simpl. rewrite lookup_empty, elem_of_nil.
    split; [by intros [? ?]|done].
  - rewrite frequencyTable_snoc, fmap_app, elem_of_app. cbn [fmap list_fmap].
    rewrite list_elem_of_singleton, <- IH. unfold countNeighborhood.
    destruct (decide (x = Name n)) as [->|Hne].
    + split; [by right|]. intros _.
      destruct (frequencyTable l !! Name n); rewrite lookup_insert_eq; by eexists.
    + destruct (frequencyTable l !! Name n); rewrite lookup_insert_ne by done;
        (split; [by left|by intros [?|?]]).
Qed.

Lemma frequencyTable_occurrences neighborhoods x :
  Z.of_nat (length neighborhoods) < 2 ^ 63 →
  frequencyTable neighborhoods !! x =
  if decide (occurrences x neighborhoods = 0%nat) then None
  else Some (Z.of_nat (occurrences x neighborhoods)).
Proof.
  induction neighborhoods as [|n l IH] using rev_ind; intros Hlen.
  - unfold frequencyTable. simpl. by rewrite lookup_empty.
  - rewrite length_app in Hlen. simpl in Hlen.
    rewrite frequencyTable_snoc, occurrences_snoc. unfold countNeighborhood.
    pose proof (occurrences_le x l) as Hle.
    destruct (decide (Name n = x)) as [->|Hne].
    + rewrite IH by lia. case_decide as H0.
      * rewrite lookup_insert_eq, H0. by simpl.
      * rewrite lookup_insert_eq, int_wrap_small by lia.
        case_decide; [lia|]. f_equal. lia.
    + rewrite Nat.add_0_r.
      destruct (frequencyTable l !! Name n); rewrite lookup_insert_ne by done;
        apply IH; lia.
Qed.

(** X1. For a list that a Go slice can hold (fewer than [2^63] records),
    the table maps every name that occurs to the number of its records,
    and holds no other name. *)
Theorem frequencyTable_counts neighborhoods x :
  Z.of_nat (length neighborhoods) < 2 ^ 63 →
  frequencyTable neighborhoods !! x =
  if decide (occurrences x neighborhoods = 0%nat) then None
  else Some (Z.of_nat (occurrences x neighborhoods)).
Proof. intros; eapply frequencyTable_occurrences; eassumption. Qed.

Lemma frequencyTable_counts_witness :
  frequencyTable [A; A; B; C] !! "A" =
  if decide (occurrences "A" [A; A; B; C] = 0%nat) then None
  else Some (Z.of_nat (occurrences "A" [A; A; B; C])).
Proof. apply (frequencyTable_counts [A; A; B; C] "A"). vm_compute. reflexivity. Defined.

(** ** The heap holds the entries of the table *)

Lemma cons_insert_Permutation {X} (l : list X) j a y :
  l !! j = Some y → y :: <[j:=a]> l ≡ₚ a :: l.
Proof.
  revert j. induction l as [|b l IH]; intros [|j] Hj; simplify_eq/=.
  - apply Permutation_swap.
  - rewrite (Permutation_swap b y), (IH j Hj). apply Permutation_swap.
Qed.

Lemma swap_Permutation {X} (l : list X) i j x y :
  (i < j)%nat → l !! i = Some x → l !! j = Some y →
  <[j:=x]> (<[i:=y]> l) ≡ₚ l.
Proof.
  revert i j. induction l as [|b l IH]; intros [|i] [|j] Hij Hi Hj;
    simplify_eq/=; try lia.
  - by apply cons_insert_Permutation.
  - f_equiv. apply IH; [lia|done..].
Qed.

Lemma up_Permutation fuel : ∀ h j h', up fuel h j = Returned h' → h' ≡ₚ h.
Proof.
  induction fuel as [|fuel IH]; intros h j h'; cbn [up]; [by intros [= <-]|].
  case_decide as Hi; [by intros [= <-]|].
  unfold Less, Swap, at_index. unfold mbind, outcome_bind, mret, outcome_ret.
  destruct (h !! j) as [x|] eqn:Ex; [|done].
  destruct (h !! ((j - 1) / 2)%nat) as [y|] eqn:Ey; [|done].
  destruct (bool_decide (count x < count y)); cbn [negb]; [|by intros [= <-]].
  intros Hup. rewrite (IH _ _ _ Hup).
  pose proof (parent_le j). apply swap_Permutation; [lia|done..].
Qed.

Lemma heap_Push_Permutation h x h' : heap_Push h x = Returned h' → h' ≡ₚ x :: h.
Proof.
  unfold heap_Push, Push. intros Hup%up_Permutation.
  rewrite Hup. by rewrite Permutation_app_comm.
Qed.

Lemma pushAll_cons h kv rest :
  pushAll h (kv :: rest) =
  match heap_Push h (mkFrequency kv.1 kv.2) with
  | Returned h1 => pushAll h1 rest
  | Panicked reason => Panicked reason
  end.
Proof.
  unfold pushAll. cbn [foldl].
  change (mret h ≫= _) with (heap_Push h (mkFrequency kv.1 kv.2)).
  destruct (heap_Push_returns h (mkFrequency kv.1 kv.2)) as (h1 & -> & _). done.
Qed.

Lemma pushAll_Permutation entries : ∀ h h',
  pushAll h entries = Returned h' →
  h' ≡ₚ h ++ ((λ kv, mkFrequency kv.1 kv.2) <$> entries).
Proof.
  induction entries as [|kv rest IH]; intros h h'.
  - intros [= <-]. by rewrite app_nil_r.
  - rewrite pushAll_cons.
    destruct (heap_Push h (mkFrequency kv.1 kv.2)) as [h1|reason] eqn:E; [|done].
    intros Hrest%IH. rewrite Hrest, (heap_Push_Permutation _ _ _ E).
    cbn [fmap list_fmap app]. apply Permutation_middle.
Qed.

Lemma getMaxHeap_Permutation (R : MapRange) (m : gmap string Z) :
  ∃ h, getMaxHeap R m = Returned h ∧ h ≡ₚ entriesOf m.
Proof.
  destruct (getMaxHeap_returns R m) as (h & E & _). exists h. split; [done|].
  unfold getMaxHeap in E. apply pushAll_Permutation in E. rewrite E. simpl.
  unfold entriesOf. by rewrite (range_order_perm R).
Qed.

(** X2. The heap that [getMaxHeap] builds holds the entries of the table,
    each once, in some order. *)
Theorem getMaxHeap_entries (R : MapRange) (m : gmap string Z) :
  ∃ h, getMaxHeap R m = Returned h ∧ h ≡ₚ entriesOf m.
Proof. intros; eapply getMaxHeap_Permutation; eassumption. Qed.

(** ** The heap is ordered, the least count first *)

Lemma parent_lt (k : nat) : (0 < k)%nat → ((k - 1) / 2 < k)%nat.
Proof. intros Hk. pose proof (parent_le k). lia. Qed.

Lemma swap_lookup {X} (h : list X) (i j k : nat) (P Cv : X) :
  i ≠ j → h !! i = Some P → h !! j = Some Cv →
  <[j:=P]> (<[i:=Cv]> h) !! k =
  if decide (k = j) then Some P else if decide (k = i) then Some Cv else h !! k.
Proof.
  intros Hij Hi Hj. pose proof (lookup_lt_Some _ _ _ Hi). pose proof (lookup_lt_Some _ _ _ Hj).
  case_decide as Hkj.
  - subst. apply list_lookup_insert_eq. by rewrite length_insert.
  - rewrite list_lookup_insert_ne by done. case_decide as Hki.
    + subst. by apply list_lookup_insert_eq.
    + by rewrite list_lookup_insert_ne.
Qed.

Lemma up_ordered fuel : ∀ h j h',
  (j < fuel)%nat → orderedExcept h j → up fuel h j = Returned h' → heapOrdered h'.
Proof.
  induction fuel as [|fuel IH]; intros h j h' Hfuel [Hrest Hgrand]; [lia|].
  cbn [up]. case_decide as Hi.
  { intros [= <-]. intros k x y Hk. apply Hrest; [done|].
    destruct (decide (0 < j)%nat) as [Hj|]; [|lia]. pose proof (parent_lt j Hj). lia. }
  assert (0 < j)%nat as Hj by (destruct j; [done|lia]).
  pose proof (parent_lt j Hj) as Hlt.
  unfold Less, Swap, at_index. unfold mbind, outcome_bind, mret, outcome_ret.
  destruct (h !! j) as [Cv|] eqn:Ej; [|done].
  destruct (h !! ((j - 1) / 2)%nat) as [P|] eqn:Ei; [|done].
  case_bool_decide as Hless; cbn [negb].
  - intros Hup. eapply (IH _ ((j - 1) / 2)%nat); [lia| |exact Hup]. split.
    + intros k x y Hk Hki. rewrite !(swap_lookup h _ j _ P Cv) by done.
      case_decide as Hkj.
      * subst k. rewrite decide_False by lia. rewrite decide_True by done.
        intros [= <-] [= <-]. lia.
      * rewrite (decide_False (P:=k = ((j - 1) / 2)%nat)) by done. intros Ek.
        case_decide as Hpj; [|case_decide as Hpi].
        -- intros [= <-]. by apply (Hgrand k x P).
        -- intros [= <-].
           assert (count P ≤ count x)%Z by (apply (Hrest k x P Hk Hkj Ek); by rewrite Hpi).
           lia.
        -- intros Ep. by apply (Hrest k x y).
    + intros c x y Hi0 Hc Hpc. rewrite !(swap_lookup h _ j _ P Cv) by done.
      pose proof (parent_lt _ Hi0) as Hpi. pose proof (parent_lt c Hc) as Hpc'.
      rewrite (decide_False (P:=((((j - 1) / 2) - 1) / 2)%nat = j)) by lia.
      rewrite (decide_False (P:=((((j - 1) / 2) - 1) / 2)%nat = ((j - 1) / 2)%nat)) by lia.
      intros Ec Ey.
      assert (count y ≤ count P)%Z as HyP by (by apply (Hrest _ P y Hi0 Hi)).
      case_decide as Hcj; [by injection Ec as <-|].
      rewrite decide_False in Ec by lia.
      assert (count P ≤ count x)%Z; [|lia].
      apply (Hrest c x P Hc Hcj Ec). by rewrite Hpc.
  - intros [= <-]. intros k x y Hk Ex Ey.
    destruct (decide (k = j)) as [->|Hkj]; [|by apply (Hrest k x y)].
    simplify_eq. lia.
Qed.

Lemma heap_Push_ordered h x h' :
  heapOrdered h → heap_Push h x = Returned h' → heapOrdered h'.
Proof.
  intros Hord. unfold heap_Push, Push, Len. rewrite length_app. simpl.
  replace (length h + 1 - 1)%nat with (length h) by lia.
  apply up_ordered; [lia|]. split.
  - intros k a b Hk Hne Ea Eb.
    pose proof (lookup_lt_Some _ _ _ Ea) as Hlen. rewrite length_app in Hlen.
    simpl in Hlen. pose proof (parent_lt k Hk).
    rewrite lookup_app_l in Ea, Eb by lia. by apply (Hord k).
  - intros c a b _ Hc Hpc Ea _.
    pose proof (lookup_lt_Some _ _ _ Ea) as Hlen. rewrite length_app in Hlen.
    simpl in Hlen. pose proof (parent_lt c Hc). lia.
Qed.

Lemma pushAll_ordered entries : ∀ h h',
  heapOrdered h → pushAll h entries = Returned h' → heapOrdered h'.
Proof.
  induction entries as [|kv rest IH]; intros h h' Hord.
  - by intros [= <-].
  - rewrite pushAll_cons.
    destruct (heap_Push h (mkFrequency kv.1 kv.2)) as [h1|reason] eqn:E; [|done].
    apply IH. by eapply heap_Push_ordered.
Qed.

Lemma heapOrdered_rootLeast h : heapOrdered h → rootLeast h.
Proof.
  intros Hord r x Hr (j & Hj)%list_elem_of_lookup. revert x Hj.
  induction (lt_wf j) as [j _ IH]. intros x Hj.
  destruct (decide (j = 0)%nat) as [->|Hne]; [by simplify_eq|].
  assert (0 < j)%nat as Hpos by lia. pose proof (parent_lt j Hpos) as Hlt.
  destruct (lookup_lt_is_Some_2 h ((j - 1) / 2)%nat) as [y Hy].
  { apply lookup_lt_Some in Hj. lia. }
  pose proof (Hord j x y Hpos Hj Hy). pose proof (IH _ Hlt y Hy). lia.
Qed.

Lemma getMaxHeap_heapOrdered (R : MapRange) (m : gmap string Z) :
  ∃ h, getMaxHeap R m = Returned h ∧ heapOrdered h ∧ rootLeast h.
Proof.
  destruct (getMaxHeap_returns R m) as (h & E & _). exists h. split; [done|].
  assert (heapOrdered h) as Hord.
  { apply (pushAll_ordered (range_order R m) [] h); [|done].
    intros j x y _ Hx. by rewrite lookup_nil in Hx. }
  split; [done|]. by apply heapOrdered_rootLeast.
Qed.

(** X3. The heap that [getMaxHeap] builds is ordered by [Less]: no element
    has a count below that of its parent, so the first element has the
    least count of all, not the greatest. *)
Theorem getMaxHeap_ordered (R : MapRange) (m : gmap string Z) :
  ∃ h, getMaxHeap R m = Returned h ∧ heapOrdered h ∧ rootLeast h.
Proof. intros; eapply getMaxHeap_heapOrdered; eassumption. Qed.

(** ** Which names the frequency step returns *)

Lemma Pop_snoc h v h' : Pop h = Returned (v, h') → h = (h' ++ [v])%list.
Proof.
  unfold Pop, at_index. case_decide as Hz; [done|].
  unfold mbind, outcome_bind, mret, outcome_ret.
  destruct (h !! (length h - 1)%nat) as [x|] eqn:E; [|done]. intros [= <- <-].
  rewrite <- (take_S_r h (length h - 1) x E).
  replace (S (length h - 1)) with (length h) by lia. by rewrite firstn_all.
Qed.

Lemma sameFrequencyLoop_popped fuel : ∀ i h maxCount names names',
  sameFrequencyLoop fuel i h maxCount names = Returned names' →
  ∃ k, (k ≤ length h)%nat ∧
       names' = (names ++ (name <$> take k (reverse h)))%list ∧
       climbing maxCount (take k (reverse h)).
Proof.
  induction fuel as [|fuel IH]; intros i h maxCount names names';
    cbn [sameFrequencyLoop].
  - intros [= <-]. exists 0%nat. rewrite take_0, app_nil_r. split; [lia|done].
  - case_decide as Hi.
    2:{ intros [= <-]. exists 0%nat. rewrite take_0, app_nil_r. split; [lia|done]. }
    destruct (Pop h) as [[v h1]|reason] eqn:E; [|done].
    unfold mbind, outcome_bind, mret, outcome_ret.
    apply Pop_snoc in E. subst h. rewrite reverse_snoc.
    case_decide as Hbreak.
    { intros [= <-]. exists 0%nat. rewrite take_0, app_nil_r. split; [lia|done]. }
    intros (k & Hk & -> & Hclimb)%IH. exists (S k).
    rewrite length_app. simpl. rewrite <- app_assoc. split; [lia|]. split; [done|].
    split; [lia|done].
Qed.

Lemma findSame_take_reverse h :
  ∃ k, findNeighborhoodsWithSameFrequency h =
       Returned (name <$> take k (reverse h), None) ∧
       (2 * k ≤ Len h + 1)%nat ∧
       ((Len h = 1 ∧ k = 1)%nat ∨ climbing 0 (take k (reverse h))).
Proof.
  unfold findNeighborhoodsWithSameFrequency.
  case_decide as H0.
  { exists 0%nat. rewrite take_0. split; [done|]. split; [lia|by right]. }
  case_decide as H1.
  - destruct (Pop_returns h) as [v E]; [by destruct h|]. rewrite E.
    apply Pop_snoc in E. exists 1%nat.
    assert (reverse h = v :: reverse (take (length h - 1) h)) as ->
      by (rewrite E at 1; apply reverse_snoc).
    split; [done|]. split; [lia|by left].
  - destruct (sameFrequencyLoop (Len h) 0 h 0 []) as [names|reason] eqn:E.
    + pose proof (sameFrequencyLoop_half _ _ _ _ _ _ E) as Hhalf.
      apply sameFrequencyLoop_popped in E as (k & Hk & -> & Hclimb).
      exists k. split; [done|]. simpl in Hhalf. rewrite length_fmap in Hhalf.
      rewrite length_take, length_reverse in Hhalf. unfold Len in *.
      split; [lia|by right].
    + by destruct (sameFrequencyLoop_returns (Len h) 0 h 0 []) as [names E'];
        rewrite E in E'.
Qed.


(** The frequency step in terms of the heap. *)
Lemma highest_from_heap (R : MapRange) neighborhoods :
  ∃ h k,
    getMaxHeap R (frequencyTable neighborhoods) = Returned h ∧
    h ≡ₚ entriesOf (frequencyTable neighborhoods) ∧
    heapOrdered h ∧
    findNeighborhoodsWithSameFrequency h = Returned (name <$> take k (reverse h), None) ∧
    findNeighborhoodWithHighestOccurrence R neighborhoods =
    Returned (name <$> take k (reverse h), None).
Proof.
  destruct (getMaxHeap_Permutation R (frequencyTable neighborhoods)) as (h & E & Hperm).
  destruct (getMaxHeap_heapOrdered R (frequencyTable neighborhoods)) as (h' & E' & Hord & _).
  rewrite E in E'. injection E' as <-.
  destruct (findSame_take_reverse h) as (k & Ek & _).
  exists h, k. repeat (split; [done|]).
  unfold findNeighborhoodWithHighestOccurrence. rewrite E.
  unfold mbind, outcome_bind, mret, outcome_ret. by rewrite Ek.
Qed.

Lemma entriesOf_names (m : gmap string Z) : name <$> entriesOf m = (map_to_list m).*1.
Proof. unfold entriesOf. rewrite <- list_fmap_compose. done. Qed.

Lemma entriesOf_elem (m : gmap string Z) v :
  v ∈ entriesOf m ↔ m !! name v = Some (count v).
Proof.
  unfold entriesOf. rewrite list_elem_of_fmap. split.
  - intros ([key c] & -> & Hkv). by apply elem_of_map_to_list in Hkv.
  - intros Hv. exists (name v, count v). split; [by destruct v|].
    by apply elem_of_map_to_list.
Qed.

Lemma highest_NoDup_elem (R : MapRange) neighborhoods :
  match findNeighborhoodWithHighestOccurrence R neighborhoods with
  | Returned (names, _) =>
      NoDup names ∧ Forall (λ x, x ∈ Name <$> neighborhoods) names
  | Panicked _ => False
  end.
Proof.
  destruct (highest_from_heap R neighborhoods) as (h & k & _ & Hperm & _ & _ & ->).
  assert (NoDup (name <$> h)) as Hnodup.
  { rewrite Hperm, entriesOf_names. apply NoDup_fst_map_to_list. }
  split.
  - rewrite fmap_take, fmap_reverse.
    eapply sublist_NoDup; [|apply sublist_take]. by rewrite reverse_Permutation.
  - apply Forall_forall. intros x (v & -> & Hv)%list_elem_of_fmap.
    apply (subseteq_take k (reverse h)) in Hv. rewrite elem_of_reverse in Hv.
    rewrite Hperm in Hv.
    apply entriesOf_elem in Hv. apply frequencyTable_is_Some. by eexists.
Qed.

(** X5. The names that the frequency step returns are pairwise different,
    and each is the name of a record of the input. *)
Theorem highest_names_distinct_and_present (R : MapRange) neighborhoods :
  match findNeighborhoodWithHighestOccurrence R neighborhoods with
  | Returned (names, _) =>
      NoDup names ∧ Forall (λ x, x ∈ Name <$> neighborhoods) names
  | Panicked _ => False
  end.
Proof. intros; eapply highest_NoDup_elem; eassumption. Qed.

Lemma highestOccurrence_one x neighborhoods :
  highestOccurrence [x] neighborhoods =
  filter (λ neighborhood, x = Name neighborhood) neighborhoods.
Proof. unfold highestOccurrence. cbn. by rewrite app_nil_r. Qed.

Lemma FindBest_by_names (R : MapRange) (db : DistanceQuery) neighborhoods w :
  match findNeighborhoodWithHighestOccurrence R neighborhoods with
  | Returned ([], _) =>
      FindBestNeighborhood R db neighborhoods w = (Returned (zeroNeighborhood, None), w)
  | Returned ([x], _) =>
      FindBestNeighborhood R db neighborhoods w =
      (Returned (default zeroNeighborhood
                   (head (filter (λ neighborhood, x = Name neighborhood) neighborhoods)),
                 None), w)
  | Returned (_ :: _ :: _, _) =>
      (FindBestNeighborhood R db neighborhoods w).1 =
      Panicked "assignment to entry in nil map"
  | Panicked _ => False
  end.
Proof.
  pose proof (highest_NoDup_elem R neighborhoods) as Hnames.
  destruct (highestOccurrence_returns R neighborhoods) as [names E].
  rewrite E in Hnames |- *. destruct Hnames as [Hnodup Hin].
  destruct names as [|x [|y rest]].
  - rewrite (FindBest_with_names R db _ [] w E).
    apply (findLeast_one_name R db [] w ""). by intros o Ho%elem_of_nil.
  - rewrite (FindBest_with_names R db _ [x] w E), highestOccurrence_one.
    apply (findLeast_one_name R db _ w x).
    by intros o [Ho _]%list_elem_of_filter.
  - apply FindBest_two_names. rewrite E. simpl. apply bool_decide_eq_true.
    apply NoDup_cons in Hnodup as [Hxy _].
    apply Forall_cons in Hin as [Hx [Hy _]%Forall_cons].
    split; [|done]. intros ->. apply Hxy. by left.
Qed.

(** X6. The call returns exactly when the frequency step has returned at
    most one name: the zero value for no name, the first record of the
    name for one name; for two names or more it panics on the nil edge
    map. *)
Theorem FindBest_returns_or_panics (R : MapRange) (db : DistanceQuery) neighborhoods w :
  match findNeighborhoodWithHighestOccurrence R neighborhoods with
  | Returned ([], _) =>
      FindBestNeighborhood R db neighborhoods w = (Returned (zeroNeighborhood, None), w)
  | Returned ([x], _) =>
      FindBestNeighborhood R db neighborhoods w =
      (Returned (default zeroNeighborhood
                   (head (filter (λ neighborhood, x = Name neighborhood) neighborhoods)),
                 None), w)
  | Returned (_ :: _ :: _, _) =>
      (FindBestNeighborhood R db neighborhoods w).1 =
      Panicked "assignment to entry in nil map"
  | Panicked _ => False
  end.
Proof. intros; eapply FindBest_by_names; eassumption. Qed.

Lemma head_filter_name x (neighborhoods : list Neighborhood) :
  x ∈ Name <$> neighborhoods →
  ∃ n, head (filter (λ neighborhood, x = Name neighborhood) neighborhoods) = Some n ∧
       n ∈ neighborhoods ∧ Name n = x.
Proof.
  intros (o & -> & Ho)%list_elem_of_fmap.
  destruct (filter (λ neighborhood, Name o = Name neighborhood) neighborhoods)
    as [|n rest] eqn:E.
  - assert (o ∈ filter (λ neighborhood, Name o = Name neighborhood) neighborhoods) as Hin
      by (by apply list_elem_of_filter).
    rewrite E in Hin. by apply elem_of_nil in Hin.
  - exists n. split; [done|].
    assert (n ∈ n :: rest) as Hin by (by left). rewrite <- E in Hin.
    apply list_elem_of_filter in Hin as [Hname Hin]. done.
Qed.

Lemma findSame_nonempty h names e :
  h ≠ [] → (∀ v, v ∈ h → (0 ≤ count v)%Z) →
  findNeighborhoodsWithSameFrequency h = Returned (names, e) → names ≠ [].
Proof.
  intros Hne Hpos. unfold findNeighborhoodsWithSameFrequency.
  case_decide as H0; [by destruct h|]. case_decide as H1.
  - destruct (Pop h) as [[v h1]|reason]; [|done]. by intros [= <- <-].
  - destruct (Len h) as [|fuel] eqn:Elen; [done|]. cbn [sameFrequencyLoop].
    rewrite Elen. rewrite decide_True by lia.
    destruct (Pop_returns h Hne) as [v E]. rewrite E.
    unfold mbind, outcome_bind, mret, outcome_ret.
    assert (v ∈ h) as Hv.
    { apply Pop_snoc in E. rewrite E. apply elem_of_app. right. by left. }
    rewrite decide_False by (specialize (Hpos v Hv); lia).
    destruct (sameFrequencyLoop fuel 1 _ (count v) _) as [names'|reason] eqn:El; [|done].
    apply sameFrequencyLoop_popped in El as (k & _ & -> & _).
    intros [= <- <-]. done.
Qed.

(** The counts in the table of a list that a slice can hold are positive. *)
Lemma frequencyTable_positive neighborhoods x c :
  Z.of_nat (length neighborhoods) < 2 ^ 63 →
  frequencyTable neighborhoods !! x = Some c →
  c = Z.of_nat (occurrences x neighborhoods) ∧ (0 < c)%Z.
Proof.
  intros Hlen. rewrite (frequencyTable_occurrences _ _ Hlen).
  case_decide; [done|]. intros [= <-]. split; [done|lia].
Qed.

Lemma FindBest_one_name (R : MapRange) (db : DistanceQuery) n rest w :
  (∀ o, o ∈ rest → Name o = Name n) →
  FindBestNeighborhood R db (n :: rest) w = (Returned (n, None), w).
Proof.
  intros Hone.
  assert (∀ x, x ∈ Name <$> n :: rest → x = Name n) as Hall.
  { intros x (o & -> & [->|Ho]%elem_of_cons)%list_elem_of_fmap; [done|by apply Hone]. }
  destruct (highest_from_heap R (n :: rest)) as (h & k & _ & Hperm & _ & Esame & E).
  assert (NoDup (name <$> h)) as Hnodup.
  { rewrite Hperm, entriesOf_names. apply NoDup_fst_map_to_list. }
  assert (∀ v, v ∈ h → name v = Name n) as Hnames.
  { intros v Hv. rewrite Hperm in Hv. apply entriesOf_elem in Hv.
    apply Hall, frequencyTable_is_Some. by eexists. }
  assert (∃ v, h = [v]) as [v ->].
  { destruct (proj2 (frequencyTable_is_Some (n :: rest) (Name n))) as [c Hc]; [by left|].
    assert (mkFrequency (Name n) c ∈ h) as Hin by (rewrite Hperm; by apply entriesOf_elem).
    destruct h as [|a [|b t]]; [by apply elem_of_nil in Hin|by exists a|].
    apply NoDup_cons in Hnodup as [Hab _]. destruct Hab.
    rewrite (Hnames a), (Hnames b); [by left|by right; left|by left]. }
  pose proof (FindBest_by_names R db (n :: rest) w) as Hcall.
  change (reverse [v]) with [v] in *.
  assert (name <$> take k [v] = [name v]) as Hk.
  { revert Esame. unfold findNeighborhoodsWithSameFrequency, Pop, at_index. cbn.
    by intros [= <-]. }
  rewrite Hk in E. rewrite E in Hcall. cbv beta iota in Hcall.
  rewrite (Hnames v) in Hcall by (by left).
  rewrite filter_cons, decide_True in Hcall by done. done.
Qed.

(** X7. On one record or more, all of one name, the call returns the
    first record, with a nil error and no call of the provider. *)
Theorem FindBest_single_name (R : MapRange) (db : DistanceQuery) n rest w :
  (∀ o, o ∈ rest → Name o = Name n) →
  FindBestNeighborhood R db (n :: rest) w = (Returned (n, None), w).
Proof. intros; eapply FindBest_one_name; eassumption. Qed.

Lemma FindBest_single_name_witness :
  FindBestNeighborhood ascending failing [A; A'; A] [] = (Returned (A, None), []).
Proof.
  apply (FindBest_single_name ascending failing A [A'; A] []).
  by intros o [->|[->|Ho%elem_of_nil]%elem_of_cons]%elem_of_cons.
Defined.

(** X8. On a list of one record or more that a slice can hold, a call that
    returns, returns one of the records of the list, never the zero
    value in their place. *)
Theorem FindBest_returns_a_record (R : MapRange) (db : DistanceQuery)
  neighborhoods w n e w' :
  Z.of_nat (length neighborhoods) < 2 ^ 63 →
  neighborhoods ≠ [] →
  FindBestNeighborhood R db neighborhoods w = (Returned (n, e), w') →
  n ∈ neighborhoods.
Proof.
  intros Hlen Hne Hret.
  destruct (highest_from_heap R neighborhoods) as (h & k & _ & Hperm & _ & Esame & E).
  assert (name <$> take k (reverse h) ≠ []) as Hnames.
  { apply (findSame_nonempty h _ None); [| |done].
    - destruct neighborhoods as [|o l]; [done|].
      destruct (proj2 (frequencyTable_is_Some (o :: l) (Name o))) as [c Hc]; [by left|].
      assert (mkFrequency (Name o) c ∈ h) as Hin
        by (rewrite Hperm; by apply entriesOf_elem).
      intros ->. by apply elem_of_nil in Hin.
    - intros v Hv. rewrite Hperm in Hv. apply entriesOf_elem in Hv.
      apply (frequencyTable_positive _ _ _ Hlen) in Hv. lia. }
  pose proof (FindBest_by_names R db neighborhoods w) as Hcall.
  pose proof (highest_NoDup_elem R neighborhoods) as Hpresent.
  rewrite E in Hcall, Hpresent.
  destruct (name <$> take k (reverse h)) as [|x [|y t]]; [done| |].
  - destruct Hpresent as [_ [Hx _]%Forall_cons].
    destruct (head_filter_name x neighborhoods Hx) as (n0 & Hhead & Hin & _).
    rewrite Hhead, Hret in Hcall. simpl in Hcall. by simplify_eq.
  - rewrite Hret in Hcall. done.
Qed.

Lemma FindBest_returns_a_record_witness : B ∈ [A; B].
Proof.
  apply (FindBest_returns_a_record ascending threeWay [A; B] [] B None []).
  - vm_compute. reflexivity.
  - done.
  - vm_compute. reflexivity.
Defined.

Lemma findSame_pair u v :
  (0 ≤ count v)%Z →
  findNeighborhoodsWithSameFrequency [u; v] = Returned ([name v], None).
Proof.
  intros Hv. unfold findNeighborhoodsWithSameFrequency, Len. simpl length.
  case_decide; [lia|]. case_decide; [lia|].
  cbn [sameFrequencyLoop]. unfold Len. simpl length.
  rewrite decide_True by lia.
  assert (Pop [u; v] = Returned (v, [u])) as ->.
  { unfold Pop, at_index. simpl. try case_decide; (lia || done). }
  unfold mbind, outcome_bind, mret, outcome_ret.
  simpl length. repeat case_decide; (lia || done).
Qed.

(** X9. On a list with exactly two different names that a slice can hold,
    the call returns, with a nil error and no call of the provider, the
    first record of a name that no name has more records than: with two
    names the most frequent one wins. *)
Theorem FindBest_two_names_most_frequent (R : MapRange) (db : DistanceQuery)
  neighborhoods w :
  Z.of_nat (length neighborhoods) < 2 ^ 63 →
  size (frequencyTable neighborhoods) = 2%nat →
  ∃ n, FindBestNeighborhood R db neighborhoods w = (Returned (n, None), w) ∧
       head (filter (λ o, Name n = Name o) neighborhoods) = Some n ∧
       ∀ o, o ∈ neighborhoods →
            (occurrences (Name o) neighborhoods ≤ occurrences (Name n) neighborhoods)%nat.
Proof.
  intros Hlen Hsize.
  destruct (highest_from_heap R neighborhoods) as (h & k & _ & Hperm & Hord & Esame & E).
  assert (length h = 2%nat) as Hlen2.
  { rewrite Hperm. unfold entriesOf. by rewrite length_fmap, length_map_to_list. }
  destruct h as [|u [|v [|? ?]]]; try done.
  assert (count u ≤ count v)%Z as Huv by (apply (Hord 1%nat v u); [lia|done..]).
  assert (∀ x, x ∈ [u; v] → count x = Z.of_nat (occurrences (name x) neighborhoods) ∧
                             (0 < count x)%Z) as Hcount.
  { intros x Hx. rewrite Hperm in Hx. apply entriesOf_elem in Hx.
    by apply frequencyTable_positive. }
  destruct (Hcount v) as [Hv Hvpos]; [by right; left|].
  assert (name <$> take k (reverse [u; v]) = [name v]) as Hk.
  { rewrite findSame_pair in Esame by lia. by injection Esame as <-. }
  rewrite Hk in E.
  pose proof (FindBest_by_names R db neighborhoods w) as Hcall.
  pose proof (highest_NoDup_elem R neighborhoods) as Hpresent.
  rewrite E in Hcall, Hpresent. cbv beta iota in Hcall.
  destruct Hpresent as [_ [Hin _]%Forall_cons].
  destruct (head_filter_name _ _ Hin) as (n & Hhead & Hn & Hname).
  rewrite Hhead in Hcall. exists n. split; [done|]. rewrite Hname. split; [done|].
  intros o Ho.
  destruct (proj2 (frequencyTable_is_Some neighborhoods (Name o))) as [c Hc].
  { apply list_elem_of_fmap. by exists o. }
  assert (mkFrequency (Name o) c ∈ [u; v]) as Hentry
    by (rewrite Hperm; by apply entriesOf_elem).
  destruct (Hcount _ Hentry) as [Hco _]. simpl in Hco.
  assert (c ≤ count v)%Z; [|lia].
  by apply elem_of_cons in Hentry as [<-|[<-|[]%elem_of_nil]%elem_of_cons].
Qed.

Lemma FindBest_two_names_most_frequent_witness :
  ∃ n, FindBestNeighborhood ascending failing [B; A; B] [] = (Returned (n, None), []) ∧
       head (filter (λ o, Name n = Name o) [B; A; B]) = Some n ∧
       ∀ o, o ∈ [B; A; B] →
            (occurrences (Name o) [B; A; B] ≤ occurrences (Name n) [B; A; B])%nat.
Proof.
  apply (FindBest_two_names_most_frequent ascending failing [B; A; B] []).
  - vm_compute. reflexivity.
  - vm_compute. reflexivity.
Defined.

(** ** The cache *)

Lemma string_append_assoc (a b c : string) :
  String.append (String.append a b) c = String.append a (String.append b c).
Proof.
  induction a as [|ch a IH]; [done|].
  change (String ch (String.append (String.append a b) c) =
          String ch (String.append a (String.append b c))).
  by rewrite IH.
Qed.

Lemma cacheKey_sorted a b :
  String.ltb b a = false →
  generateNeighborhoodCacheKey a b = md5_hex (String.append a b).
Proof.
  intros Hab. unfold generateNeighborhoodCacheKey, sort_Strings. cbn.
  by rewrite Hab.
Qed.

(** X10. The two sorted names are joined with nothing between them, so
    the key does not tell apart two pairs that join to the same string:
    the pair of [a] and [b ++ c] has the key of the pair of [a ++ b] and
    [c], and a lookup of the second pair after the first is answered with
    the cached distance of the first, with no call of the provider. *)
Theorem cacheKey_joined_names_collide (db : DistanceQuery) (a b c : string)
  distanceCache n o n' o' w :
  String.ltb (String.append b c) a = false →
  String.ltb c (String.append a b) = false →
  Name n = a → Name o = String.append b c →
  Name n' = String.append a b → Name o' = c →
  generateNeighborhoodCacheKey (Name n) (Name o) =
  generateNeighborhoodCacheKey (Name n') (Name o') ∧
  match resolveDistance db distanceCache n o w with
  | (Returned (d, distanceCache'), w') =>
      resolveDistance db distanceCache' n' o' w' = (Returned (d, distanceCache'), w')
  | (Panicked _, _) => False
  end.
Proof.
  intros H1 H2 Hn Ho Hn' Ho'.
  assert (generateNeighborhoodCacheKey (Name n) (Name o) =
          generateNeighborhoodCacheKey (Name n') (Name o')) as Hkey.
  { rewrite Hn, Ho, Hn', Ho'. rewrite !cacheKey_sorted by done.
    by rewrite string_append_assoc. }
  split; [done|].
  destruct (distanceCache !! generateNeighborhoodCacheKey (Name n) (Name o))
    as [d|] eqn:E.
  - rewrite (resolveDistance_hit db _ _ _ _ d E).
    apply resolveDistance_hit. by rewrite <- Hkey.
  - rewrite (resolveDistance_miss db _ _ _ _ E).
    apply resolveDistance_hit. by rewrite <- Hkey, lookup_insert_eq.
Qed.

Lemma cacheKey_joined_names_collide_witness :
  generateNeighborhoodCacheKey "A" "BC" = generateNeighborhoodCacheKey "AB" "C" ∧
  match resolveDistance threeWay ∅ (nb "A" 0) (nb "BC" 1) [] with
  | (Returned (d, distanceCache'), w') =>
      resolveDistance threeWay distanceCache' (nb "AB" 2) (nb "C" 0) w' =
      (Returned (d, distanceCache'), w')
  | (Panicked _, _) => False
  end.
Proof.
  apply (cacheKey_joined_names_collide threeWay "A" "B" "C" ∅
           (nb "A" 0) (nb "BC" 1) (nb "AB" 2) (nb "C" 0) []);
    vm_compute; reflexivity.
Defined.

Lemma resolveDistance_kept (db : DistanceQuery) distanceCache n o w d cache' w' k v :
  resolveDistance db distanceCache n o w = (Returned (d, cache'), w') →
  distanceCache !! k = Some v → cache' !! k = Some v.
Proof.
  destruct (distanceCache !! generateNeighborhoodCacheKey (Name n) (Name o))
    as [d0|] eqn:E.
  - rewrite (resolveDistance_hit db _ _ _ _ d0 E). by intros [= <- <- <-].
  - rewrite (resolveDistance_miss db _ _ _ _ E). intros [= <- <- <-] Hk.
    rewrite lookup_insert_ne; [done|]. intros <-. congruence.
Qed.

Lemma addEdge_kept (db : DistanceQuery) n graph distanceCache o w graph' cache' w' k v :
  addEdge db n (graph, distanceCache) o w = (Returned (graph', cache'), w') →
  distanceCache !! k = Some v → cache' !! k = Some v.
Proof.
  unfold addEdge.
  destruct (resolveDistance db distanceCache n o w) as [[[d c1]|reason] w1] eqn:E;
    unfold_M; rewrite E; [|done].
  destruct (appendEdge graph (Name n) _) as [graph1|reason]; [|done].
  intros [= <- <- <-]. by eapply resolveDistance_kept.
Qed.

Lemma addEdges_kept (db : DistanceQuery) n remaining :
  ∀ graph distanceCache w graph' cache' w' k v,
    addEdges db n (graph, distanceCache) remaining w = (Returned (graph', cache'), w') →
    distanceCache !! k = Some v → cache' !! k = Some v.
Proof.
  induction remaining as [|o rest IH]; intros graph distanceCache w graph' cache' w' k v.
  - by intros [= <- <- <-].
  - rewrite addEdges_cons.
    destruct (addEdge _ _ _ _ _) as [[[graph1 cache1]|reason] w1] eqn:E1; [|done].
    intros Hrest Hk. eapply IH; [exact Hrest|]. by eapply addEdge_kept.
Qed.

(** X11. The loop that builds the graph writes an entry of the cache once:
    an entry that is in the cache keeps its value to the end of the loop. *)
Theorem buildGraph_cache_write_once (db : DistanceQuery) all todo :
  ∀ graph distanceCache w graph' cache' w' k v,
    buildGraph db all (graph, distanceCache) todo w = (Returned (graph', cache'), w') →
    distanceCache !! k = Some v → cache' !! k = Some v.
Proof.
  induction todo as [|n rest IH]; intros graph distanceCache w graph' cache' w' k v.
  - by intros [= <- <- <-].
  - rewrite buildGraph_cons.
    destruct (addNode _ _ _ _ _) as [[[graph1 cache1]|reason] w1] eqn:E1; [|done].
    intros Hrest Hk. eapply IH; [exact Hrest|]. by eapply addEdges_kept.
Qed.

Lemma buildGraph_cache_write_once_witness :
  ∃ graph' cache' w',
    buildGraph threeWay [A; B] (allocatedGraph, {[generateNeighborhoodCacheKey "A" "B" := 7%float]})
               [A; B] [] = (Returned (graph', cache'), w') ∧
    cache' !! generateNeighborhoodCacheKey "A" "B" = Some 7%float.
Proof.
  destruct (buildGraph_allocated threeWay [A; B] [A; B] allocatedGraph
              {[generateNeighborhoodCacheKey "A" "B" := 7%float]} [])
    as (graph' & cache' & w' & E & _); [by eexists|].
  exists graph', cache', w'. split; [done|].
  apply (buildGraph_cache_write_once threeWay [A; B] [A; B] allocatedGraph
           {[generateNeighborhoodCacheKey "A" "B" := 7%float]} [] graph' cache' w' _ _ E).
  apply lookup_singleton_eq.
Defined.

Lemma le_bytes_length n x : length (MD5.le_bytes n x) = n.
Proof. revert x. induction n as [|n IH]; intros x; simpl; [done|]. by rewrite IH. Qed.

Lemma EncodeToString_length bytes :
  String.length (MD5.EncodeToString bytes) = (2 * length bytes)%nat.
Proof. induction bytes as [|b rest IH]; simpl; [done|]. rewrite IH. lia. Qed.

(** X12. A cache key is 32 characters long, whatever the two names. *)
Theorem cacheKey_length a b : String.length (generateNeighborhoodCacheKey a b) = 32%nat.
Proof.
  unfold generateNeighborhoodCacheKey, md5_hex. rewrite EncodeToString_length.
  unfold MD5.digest.
  destruct (fold_left MD5.block _ _) as [[[x1 x2] x3] x4].
  by rewrite !length_app, !le_bytes_length.
Qed.

(** ** The sums of the nodes *)

Lemma sumEdges_inner k es : ∀ sums : gmap string float64,
  let sums' :=
    foldl (λ sums targetNode,
             <[k := PrimFloat.add (default PrimFloat.zero (sums !! k))
                                  (distanceInMeters targetNode)]> sums) sums es in
  default PrimFloat.zero (sums' !! k) =
  foldl (λ acc e, PrimFloat.add acc (distanceInMeters e))
        (default PrimFloat.zero (sums !! k)) es ∧
  ∀ k', k' ≠ k → sums' !! k' = sums !! k'.
Proof.
  induction es as [|e es IH]; intros sums; [done|].
  cbn [foldl]. cbv zeta in IH |- *.
  destruct (IH (<[k := PrimFloat.add (default PrimFloat.zero (sums !! k))
                                     (distanceInMeters e)]> sums)) as [IH1 IH2].
  split.
  - rewrite IH1. by rewrite lookup_insert_eq.
  - intros k' Hk'. rewrite IH2 by done. by rewrite lookup_insert_ne.
Qed.

(** One round of the loop over the edge map leaves under its key the sum
    of its edges, whatever was there, and leaves the other keys alone. *)
Lemma sumEdges_at (sums : gmap string float64) k es :
  default PrimFloat.zero (sumEdges sums (k, es) !! k) = sumDistances es ∧
  ∀ k', k' ≠ k → sumEdges sums (k, es) !! k' = sums !! k'.
Proof.
  unfold sumEdges, sumDistances.
  destruct (sums !! k) as [old|] eqn:E.
  - destruct (sumEdges_inner k es (<[k := PrimFloat.zero]> sums)) as [H1 H2].
    cbv zeta in H1, H2. split.
    + rewrite H1. by rewrite lookup_insert_eq.
    + intros k' Hk'. rewrite H2 by done. by rewrite lookup_insert_ne.
  - destruct (sumEdges_inner k es sums) as [H1 H2]. cbv zeta in H1, H2. split.
    + rewrite H1. by rewrite E.
    + done.
Qed.

Lemma sumEdges_fold entries : ∀ (sums : gmap string float64) k,
  NoDup entries.*1 →
  (∀ es, (k, es) ∈ entries →
         default PrimFloat.zero (foldl sumEdges sums entries !! k) = sumDistances es) ∧
  (k ∉ entries.*1 → foldl sumEdges sums entries !! k = sums !! k).
Proof.
  induction entries as [|[k1 es1] rest IH]; intros sums k Hnodup.
  - split; [by intros es Hin%elem_of_nil|done].
  - cbn [foldl]. cbn [fmap list_fmap fst] in Hnodup.
    apply NoDup_cons in Hnodup as [Hk1 Hnodup].
    destruct (IH (sumEdges sums (k1, es1)) k Hnodup) as [IHin IHout].
    destruct (sumEdges_at sums k1 es1) as [Hat Hother]. split.
    + intros es [[= -> ->]|Hin]%elem_of_cons.
      * by rewrite IHout.
      * by apply IHin.
    + intros Hnotin. cbn [fmap list_fmap fst] in Hnotin.
      apply not_elem_of_cons in Hnotin as [Hne Hnotin].
      rewrite IHout by done. by apply Hother.
Qed.

(** X13. The sum that [findMinDistanceBetweenNodes] reads for a node is the
    sum of the distances of the edges stored under the name of the node,
    added from [0] in the order of the list, and [0] when nothing is
    stored: no round of the loop meets a key that it has already seen. *)
Theorem sumOf_is_sum_of_edges (R : MapRange) (graph : Graph) (node : Neighborhood) :
  sumOf R graph node = sumDistances (edgesAt graph (Name node)).
Proof.
  unfold sumOf, rangeEdges, edgesAt. destruct (edges graph) as [m|]; [|done].
  assert (NoDup (range_order R m).*1) as Hnodup.
  { rewrite (range_order_perm R). apply NoDup_fst_map_to_list. }
  destruct (sumEdges_fold (range_order R m) ∅ (Name node) Hnodup) as [Hin Hout].
  destruct (m !! Name node) as [es|] eqn:E.
  - apply Hin. rewrite (range_order_perm R). by apply elem_of_map_to_list.
  - rewrite Hout; [by rewrite lookup_empty|].
    intros ([k es] & Hk & Hentry)%list_elem_of_fmap. simpl in Hk. subst k.
    rewrite (range_order_perm R) in Hentry. apply elem_of_map_to_list in Hentry.
    congruence.
Qed.

(** ** The node with the least sum *)

Lemma pickMin_snoc sums acc l x :
  foldl (pickMin sums) acc (l ++ [x]) = pickMin sums (foldl (pickMin sums) acc l) x.
Proof. by rewrite foldl_app. Qed.

(** What the loop over the nodes leaves in [minValue] and
    [bestNeighborhood]. *)
Lemma pickMin_fold (sums : gmap string float64) l : ∀ m0 b0,
  let s := λ n, default PrimFloat.zero (sums !! Name n) in
  ∃ m b, foldl (pickMin sums) (m0, b0) l = (m, b) ∧
    Forall (λ n, PrimFloat.ltb (s n) m = false) l ∧
    ((m = m0 ∧ b = b0) ∨
     (∃ l1 l2, l = (l1 ++ b :: l2)%list ∧ m = s b ∧ PrimFloat.ltb (s b) m0 = true ∧
               Forall (λ n, PrimFloat.leb (s n) (s b) = false) l1)).
Proof.
  intros m0 b0 s. induction l as [|x l IH] using rev_ind.
  - exists m0, b0. split; [done|]. split; [done|by left].
  - destruct IH as (m & b & E & Hall & Hcase).
    rewrite pickMin_snoc, E. unfold pickMin. fold (s x).
    destruct (PrimFloat.ltb (s x) m) eqn:Hlt.
    + exists (s x), x. split; [done|]. split; [|right].
      * apply Forall_app. split; [|constructor; [apply float_ltb_irrefl|done]].
        eapply Forall_impl; [exact Hall|]. intros n Hn. simpl in Hn.
        destruct (PrimFloat.ltb (s n) (s x)) eqn:Hnx; [|done].
        by rewrite (float_ltb_trans _ _ _ Hnx Hlt) in Hn.
      * exists l, []. split; [done|]. split; [done|]. split.
        -- destruct Hcase as [[-> _]|(l1 & l2 & _ & -> & Hb & _)]; [done|].
           by apply (float_ltb_trans _ _ _ Hlt).
        -- eapply Forall_impl; [exact Hall|]. intros n Hn. simpl in Hn.
           destruct (PrimFloat.leb (s n) (s x)) eqn:Hnx; [|done].
           by rewrite (float_leb_ltb_trans _ _ _ Hnx Hlt) in Hn.
    + exists m, b. split; [done|]. split.
      * apply Forall_app. split; [done|by constructor].
      * destruct Hcase as [?|(l1 & l2 & -> & Hm & Hb & Hl1)]; [by left|right].
        exists l1, (l2 ++ [x])%list. by rewrite <- app_assoc.
Qed.

(** X14. On a graph that has not exactly one node,
    [findMinDistanceBetweenNodes] returns with a nil error: either no node
    has a sum below [+Inf] and the zero value is returned, or a node is
    returned whose sum is below [+Inf], below which no node has its sum, and
    before which no node has a sum as low: the first of the nodes with the
    least sum. *)
Theorem findMin_first_least (R : MapRange) (graph : Graph) :
  length (nodes graph) ≠ 1%nat →
  ∃ best, findMinDistanceBetweenNodes R graph = Returned (best, None) ∧
    ((best = zeroNeighborhood ∧
      Forall (λ n, PrimFloat.ltb (sumOf R graph n) PrimFloat.infinity = false)
             (nodes graph)) ∨
     (∃ l1 l2, nodes graph = (l1 ++ best :: l2)%list ∧
        PrimFloat.ltb (sumOf R graph best) PrimFloat.infinity = true ∧
        Forall (λ n, PrimFloat.ltb (sumOf R graph n) (sumOf R graph best) = false)
               (nodes graph) ∧
        Forall (λ n, PrimFloat.leb (sumOf R graph n) (sumOf R graph best) = false) l1)).
Proof.
  intros Hlen. unfold findMinDistanceBetweenNodes. rewrite decide_False by done.
  destruct (pickMin_fold (foldl sumEdges ∅ (rangeEdges R graph)) (nodes graph)
              PrimFloat.infinity zeroNeighborhood) as (m & b & E & Hall & Hcase).
  cbv zeta in Hall, Hcase. rewrite E. exists b. split; [done|].
  destruct Hcase as [[-> ->]|(l1 & l2 & Hnodes & -> & Hb & Hl1)].
  - by left.
  - right. by exists l1, l2.
Qed.

Lemma findMin_first_least_witness :
  let graph :=
    mkGraph [A; B; C]
            (Some {[ "A" := [mkEdge A B 5%float]; "B" := [mkEdge B A 3%float];
                     "C" := [mkEdge C A 3%float] ]}) in
  ∃ best, findMinDistanceBetweenNodes ascending graph = Returned (best, None) ∧
    ((best = zeroNeighborhood ∧
      Forall (λ n, PrimFloat.ltb (sumOf ascending graph n) PrimFloat.infinity = false)
             (nodes graph)) ∨
     (∃ l1 l2, nodes graph = (l1 ++ best :: l2)%list ∧
        PrimFloat.ltb (sumOf ascending graph best) PrimFloat.infinity = true ∧
        Forall (λ n, PrimFloat.ltb (sumOf ascending graph n) (sumOf ascending graph best)
                     = false) (nodes graph) ∧
        Forall (λ n, PrimFloat.leb (sumOf ascending graph n) (sumOf ascending graph best)
                     = false) l1)).
Proof.
  intros graph. apply (findMin_first_least ascending graph). simpl. lia.
Defined.

(** ** The neighborhood of an attraction *)

Section Lookup.

Context {Rest : Type} (db : Database) (attraction : Attraction Rest).

Lemma matchRow_addMatch st row :
  matchRow db attraction st row =
  Returned match matchOf db attraction row with
           | Some found => addMatch st found
           | None => st
           end.
Proof.
  unfold matchRow, matchOf, addMatch, resolveNeighborhoodMultiPolygonsCentroidPoint.
  destruct (in_neighborhood row); [|done]. cbn [negb].
  destruct (centroid db _ _ _) as [[x y]|]; [|done]. cbn.
  destruct (distance db x y _ _) as [d|]; [|done]. cbn.
  by destruct (PrimFloat.ltb d (minDistanceInMeters st)).
Qed.

Lemma matchRows_scanned rs : ∀ st,
  matchRows db attraction st (Some <$> rs) =
  Returned (inl (foldl addMatch st (omap (matchOf db attraction) rs))).
Proof.
  induction rs as [|row rs IH]; intros st; [done|].
  cbn [fmap list_fmap matchRows omap list_omap]. rewrite matchRow_addMatch.
  unfold mbind, outcome_bind. rewrite IH.
  by destruct (matchOf db attraction row).
Qed.

Lemma matchRows_not_scanned rows : ∀ st,
  None ∈ rows → matchRows db attraction st rows = Returned (inr RowScanError).
Proof.
  induction rows as [|[row|] rows IH]; intros st Hin.
  - by apply elem_of_nil in Hin.
  - cbn [matchRows]. rewrite matchRow_addMatch. unfold mbind, outcome_bind.
    apply IH. by apply elem_of_cons in Hin as [?|?].
  - done.
Qed.

Lemma rows_scanned (rows : list (option Row)) :
  None ∉ rows → ∃ rs, rows = Some <$> rs.
Proof.
  induction rows as [|[row|] rows IH]; intros Hnot.
  - by exists [].
  - destruct IH as [rs ->]; [by intros ?; apply Hnot; right|]. by exists (row :: rs).
  - destruct Hnot. by left.
Qed.

(** What the loop leaves in its variables. *)
Lemma addMatch_fold found :
  let st := foldl addMatch startMatching found in
  matchedNeighborhoods st = found.*1 ∧ i st = length found ∧
  Forall (λ m, PrimFloat.ltb m.2 (minDistanceInMeters st) = false) found ∧
  ((minDistanceInMeters st = 999999%float ∧ bestNeighborhoodIdx st = 0%nat) ∨
   (∃ n, found !! bestNeighborhoodIdx st = Some (n, minDistanceInMeters st) ∧
         PrimFloat.ltb (minDistanceInMeters st) 999999%float = true ∧
         Forall (λ m, PrimFloat.leb m.2 (minDistanceInMeters st) = false)
                (take (bestNeighborhoodIdx st) found))).
Proof.
  induction found as [|[n d] found IH] using rev_ind.
  - cbn. split; [done|]. split; [done|]. split; [done|by left].
  - cbv zeta in IH |- *. rewrite foldl_app. cbn [foldl].
    destruct IH as (Hm & Hi & Hall & Hcase).
    set (st := foldl addMatch startMatching found) in *.
    unfold addMatch. cbn [fst snd].
    destruct (PrimFloat.ltb d (minDistanceInMeters st)) eqn:Hlt; cbn.
    + rewrite Hm, Hi, fmap_app, length_app. cbn. split; [done|]. split; [lia|].
      split; [|right].
      * apply Forall_app. split; [|constructor; [apply float_ltb_irrefl|done]].
        eapply Forall_impl; [exact Hall|]. intros m Hmd. simpl in Hmd.
        destruct (PrimFloat.ltb m.2 d) eqn:Hmlt; [|done].
        by rewrite (float_ltb_trans _ _ _ Hmlt Hlt) in Hmd.
      * exists n. split; [by rewrite lookup_app_r, Nat.sub_diag|].
        split.
        -- destruct Hcase as [[E _]|(n' & _ & Hb & _)]; [by rewrite <- E|].
           by apply (float_ltb_trans _ _ _ Hlt).
        -- rewrite take_app_length. eapply Forall_impl; [exact Hall|].
           intros m Hmd. simpl in Hmd.
           destruct (PrimFloat.leb m.2 d) eqn:Hmle; [|done].
           by rewrite (float_leb_ltb_trans _ _ _ Hmle Hlt) in Hmd.
    + rewrite Hm, Hi, fmap_app, length_app. cbn. split; [done|]. split; [lia|].
      split.
      * apply Forall_app. split; [done|by constructor].
      * destruct Hcase as [?|(n' & Hb & Hlt' & Hbefore)]; [by left|right].
        exists n'. pose proof (lookup_lt_Some _ _ _ Hb) as Hlen.
        split; [by rewrite lookup_app_l|]. split; [done|].
        by rewrite take_app_le by lia.
Qed.

End Lookup.

Lemma scanned_Some rows rs : scanned rows = Some rs → rows = Some <$> rs.
Proof.
  revert rs. induction rows as [|[row|] rows IH]; intros rs; simpl.
  - by intros [= <-].
  - destruct (scanned rows) as [rs'|]; [|done]. intros [= <-].
    by rewrite (IH rs').
  - done.
Qed.

Lemma scanned_None rows : scanned rows = None → None ∈ rows.
Proof.
  induction rows as [|[row|] rows IH]; simpl; [done| |by left].
  destruct (scanned rows) as [rs'|]; [done|]. intros _. right. by apply IH.
Qed.

Lemma FindNeighborhood_scanned {Rest} (db : Database) (attraction : Attraction Rest) rs :
  containing db (AttractionLongitude attraction) (AttractionLatitude attraction) =
  Some (Some <$> rs) →
  let st := foldl addMatch startMatching (omap (matchOf db attraction) rs) in
  FindNeighborhoodContainingAttraction db attraction =
  if decide (length (matchedNeighborhoods st) = 0%nat)
  then Returned (zeroNeighborhood, None)
  else neighborhood ← at_index (matchedNeighborhoods st) (bestNeighborhoodIdx st);
       mret (neighborhood, None).
Proof.
  intros Hrows. unfold FindNeighborhoodContainingAttraction.
  rewrite Hrows, matchRows_scanned. done.
Qed.

Lemma FindNeighborhood_cases {Rest} (db : Database) (attraction : Attraction Rest) :
  match containing db (AttractionLongitude attraction) (AttractionLatitude attraction) with
  | None =>
      FindNeighborhoodContainingAttraction db attraction =
      Returned (zeroNeighborhood, Some QueryError)
  | Some rows =>
      match scanned rows with
      | None =>
          FindNeighborhoodContainingAttraction db attraction =
          Returned (zeroNeighborhood, Some RowScanError)
      | Some _ =>
          ∃ n, FindNeighborhoodContainingAttraction db attraction = Returned (n, None)
      end
  end.
Proof.
  destruct (containing db _ _) as [rows|] eqn:Hrows.
  2:{ unfold FindNeighborhoodContainingAttraction. by rewrite Hrows. }
  destruct (scanned rows) as [rs|] eqn:Hscan.
  - apply scanned_Some in Hscan. subst rows.
    rewrite (FindNeighborhood_scanned db attraction rs Hrows). cbv zeta.
    destruct (addMatch_fold (omap (matchOf db attraction) rs)) as (Hm & Hi & _ & Hcase).
    set (st := foldl addMatch startMatching _) in *.
    case_decide as Hlen; [by eexists|].
    destruct (at_index_lt (matchedNeighborhoods st) (bestNeighborhoodIdx st))
      as (n & _ & ->); [|by eexists].
    destruct Hcase as [[_ ->]|(n & Hb & _)]; [lia|].
    apply lookup_lt_Some in Hb. by rewrite Hm, length_fmap.
  - apply scanned_None in Hscan. unfold FindNeighborhoodContainingAttraction.
    by rewrite Hrows, matchRows_not_scanned.
Qed.

(** X15. [FindNeighborhoodContainingAttraction] never panics. It returns
    an error, with the zero value, when the query fails or a row does not
    scan, and in no other case: a row whose centroid or distance does not
    resolve is passed over. *)
Theorem FindNeighborhood_errors {Rest} (db : Database) (attraction : Attraction Rest) :
  match containing db (AttractionLongitude attraction) (AttractionLatitude attraction) with
  | None =>
      FindNeighborhoodContainingAttraction db attraction =
      Returned (zeroNeighborhood, Some QueryError)
  | Some rows =>
      match scanned rows with
      | None =>
          FindNeighborhoodContainingAttraction db attraction =
          Returned (zeroNeighborhood, Some RowScanError)
      | Some _ =>
          ∃ n, FindNeighborhoodContainingAttraction db attraction = Returned (n, None)
      end
  end.
Proof. intros; eapply FindNeighborhood_cases; eassumption. Qed.

Lemma FindNeighborhood_least {Rest} (db : Database) (attraction : Attraction Rest)
  rows rs :
  containing db (AttractionLongitude attraction) (AttractionLatitude attraction) =
  Some rows →
  scanned rows = Some rs →
  match omap (matchOf db attraction) rs with
  | [] =>
      FindNeighborhoodContainingAttraction db attraction =
      Returned (zeroNeighborhood, None)
  | first :: rest =>
      ∃ idx n d,
        FindNeighborhoodContainingAttraction db attraction = Returned (n, None) ∧
        (first :: rest) !! idx = Some (n, d) ∧
        ((PrimFloat.ltb d 999999%float = true ∧
          Forall (λ m, PrimFloat.ltb m.2 d = false) (first :: rest) ∧
          Forall (λ m, PrimFloat.leb m.2 d = false) (take idx (first :: rest))) ∨
         (idx = 0%nat ∧
          Forall (λ m, PrimFloat.ltb m.2 999999%float = false) (first :: rest)))
  end.
Proof.
  intros Hrows Hscan. apply scanned_Some in Hscan. subst rows.
  rewrite (FindNeighborhood_scanned db attraction rs Hrows). cbv zeta.
  destruct (addMatch_fold (omap (matchOf db attraction) rs)) as (Hm & Hi & Hall & Hcase).
  set (found := omap (matchOf db attraction) rs) in *.
  set (st := foldl addMatch startMatching found) in *.
  destruct found as [|first rest] eqn:Efound.
  { subst st. by cbn. }
  rewrite decide_False by (by rewrite Hm).
  destruct Hcase as [[Hmin Hidx]|(n & Hb & Hlt & Hbefore)].
  - exists 0%nat, first.1, first.2. rewrite Hidx, Hm. cbn.
    split; [done|]. split; [by destruct first|]. right. split; [done|].
    by rewrite <- Hmin.
  - exists (bestNeighborhoodIdx st), n, (minDistanceInMeters st).
    unfold at_index. rewrite Hm, list_lookup_fmap, Hb. cbn.
    split; [done|]. split; [done|]. by left.
Qed.

(** X16. When the query succeeds and every row scans: with no match the
    zero value is returned with a nil error; otherwise a match is returned
    below whose distance no match has its distance: the first of the
    matches with the least distance when that distance is below 999999,
    and the first match of all when no distance is below 999999. *)
Theorem FindNeighborhood_nearest {Rest} (db : Database) (attraction : Attraction Rest)
  rows rs :
  containing db (AttractionLongitude attraction) (AttractionLatitude attraction) =
  Some rows →
  scanned rows = Some rs →
  match omap (matchOf db attraction) rs with
  | [] =>
      FindNeighborhoodContainingAttraction db attraction =
      Returned (zeroNeighborhood, None)
  | first :: rest =>
      ∃ idx n d,
        FindNeighborhoodContainingAttraction db attraction = Returned (n, None) ∧
        (first :: rest) !! idx = Some (n, d) ∧
        ((PrimFloat.ltb d 999999%float = true ∧
          Forall (λ m, PrimFloat.ltb m.2 d = false) (first :: rest) ∧
          Forall (λ m, PrimFloat.leb m.2 d = false) (take idx (first :: rest))) ∨
         (idx = 0%nat ∧
          Forall (λ m, PrimFloat.ltb m.2 999999%float = false) (first :: rest)))
  end.
Proof. intros; eapply FindNeighborhood_least; eassumption. Qed.

Lemma FindNeighborhood_nearest_witness :
  ∃ idx n d,
    FindNeighborhoodContainingAttraction twoRows somewhere = Returned (n, None) ∧
    omap (matchOf twoRows somewhere)
         [mkRow true "Downtown" "Kelowna" "BC" "Canada";
          mkRow true "Southside" "Kelowna" "BC" "Canada"] !! idx = Some (n, d) ∧
    ((PrimFloat.ltb d 999999%float = true ∧
      Forall (λ m, PrimFloat.ltb m.2 d = false)
             (omap (matchOf twoRows somewhere)
                   [mkRow true "Downtown" "Kelowna" "BC" "Canada";
                    mkRow true "Southside" "Kelowna" "BC" "Canada"]) ∧
      Forall (λ m, PrimFloat.leb m.2 d = false)
             (take idx (omap (matchOf twoRows somewhere)
                             [mkRow true "Downtown" "Kelowna" "BC" "Canada";
                              mkRow true "Southside" "Kelowna" "BC" "Canada"]))) ∨
     (idx = 0%nat ∧
      Forall (λ m, PrimFloat.ltb m.2 999999%float = false)
             (omap (matchOf twoRows somewhere)
                   [mkRow true "Downtown" "Kelowna" "BC" "Canada";
                    mkRow true "Southside" "Kelowna" "BC" "Canada"]))).
Proof.
  exact (FindNeighborhood_nearest twoRows somewhere _ _ eq_refl eq_refl).
Defined.

Lemma matchOf_elem {Rest} (db : Database) (attraction : Attraction Rest)
  (rs : list Row) n d :
  (n, d) ∈ omap (matchOf db attraction) rs →
  centroid db (Name n) (City n) (StateOrProvinceName n) = Some (Latitude n, Longitude n) ∧
  distance db (Latitude n) (Longitude n)
           (AttractionLongitude attraction) (AttractionLatitude attraction) = Some d.
Proof.
  intros (row & Hrow & Hmatch)%list_elem_of_omap. revert Hmatch. unfold matchOf.
  destruct (in_neighborhood row); [|done].
  destruct (centroid db _ _ _) as [[x y]|] eqn:Ec; [|done]. cbn.
  destruct (distance db x y _ _) as [d'|] eqn:Ed; [|done]. cbn.
  by intros [= <- <-].
Qed.

(** X17. A record that [FindNeighborhoodContainingAttraction] returns
    holds in [Latitude] the first column of the centroid query, [ST_X], and
    in [Longitude] the second, [ST_Y]; the distance was asked for the point
    [(ST_X, ST_Y)], and the tie-break of [FindBestNeighborhood] passes for
    the same record the point [(Longitude, Latitude)], that is
    [(ST_Y, ST_X)], to the provider. *)
Theorem FindNeighborhood_coordinates {Rest} (db : Database) (attraction : Attraction Rest) n :
  FindNeighborhoodContainingAttraction db attraction = Returned (n, None) →
  n = zeroNeighborhood ∨
  ∃ x y d,
    centroid db (Name n) (City n) (StateOrProvinceName n) = Some (x, y) ∧
    distance db x y (AttractionLongitude attraction) (AttractionLatitude attraction)
    = Some d ∧
    Latitude n = x ∧ Longitude n = y ∧
    ∀ o w, (callProvider (distance db) n o w).2 =
           (w ++ [mkCall (Name n, Name o) [y; x] [Longitude o; Latitude o]])%list.
Proof.
  intros Hret. pose proof (FindNeighborhood_cases db attraction) as Herr.
  destruct (containing db _ _) as [rows|] eqn:Hrows; [|by rewrite Hret in Herr].
  destruct (scanned rows) as [rs|] eqn:Hscan; [|by rewrite Hret in Herr].
  pose proof (FindNeighborhood_least db attraction rows rs Hrows Hscan) as Hnear.
  destruct (omap (matchOf db attraction) rs) as [|first rest] eqn:Efound.
  - left. rewrite Hret in Hnear. by injection Hnear.
  - right. destruct Hnear as (idx & n' & d & Hret' & Hidx & _).
    rewrite Hret in Hret'. injection Hret' as <-.
    apply list_elem_of_lookup_2 in Hidx. rewrite <- Efound in Hidx.
    apply matchOf_elem in Hidx as [Hc Hd]. exists (Latitude n), (Longitude n), d.
    by repeat split.
Qed.

Lemma FindNeighborhood_coordinates_witness :
  let n := mkNeighborhood "Downtown" "Kelowna" "BC" "Canada" 1%float 2%float in
  n = zeroNeighborhood ∨
  ∃ x y d,
    centroid twoRows (Name n) (City n) (StateOrProvinceName n) = Some (x, y) ∧
    distance twoRows x y (AttractionLongitude somewhere) (AttractionLatitude somewhere)
    = Some d ∧
    Latitude n = x ∧ Longitude n = y ∧
    ∀ o w, (callProvider (distance twoRows) n o w).2 =
           (w ++ [mkCall (Name n, Name o) [y; x] [Longitude o; Latitude o]])%list.
Proof.
  intros n. apply (FindNeighborhood_coordinates twoRows somewhere n).
  vm_compute. reflexivity.
Defined.

(** ** The handler *)

Section HandlerFacts.

Context {Rest : Type} (geocode : Attraction Rest → option (float64 * float64)).
Context (R : MapRange) (db : Database).

Lemma FindNeighborhood_returns (attraction : Attraction Rest) :
  ∃ n e, FindNeighborhoodContainingAttraction db attraction = Returned (n, e).
Proof.
  pose proof (FindNeighborhood_cases db attraction) as Herr.
  destruct (containing db _ _) as [rows|]; [|by eexists _, _].
  destruct (scanned rows); [|by eexists _, _].
  destruct Herr as [n ->]. by eexists _, _.
Qed.

(** What the loop over the attractions does to the response and to
    [neighborhoods], and when it ends the process. *)
Lemma handleAttractions_spec attractions : ∀ resp ns,
  match handleAttractions geocode db (resp, ns) attractions with
  | Responded (resp', ns') =>
      SuccessfulAttractions resp' =
      (SuccessfulAttractions resp ++ omap (located geocode) attractions)%list ∧
      FailedAttractions resp' =
      (FailedAttractions resp ++ omap (unlocated geocode) attractions)%list ∧
      ClosestNeighborhood resp' = ClosestNeighborhood resp ∧
      lookupErrors geocode db attractions = [] ∧
      ∃ found, ns' = (ns ++ found)%list ∧
               Forall2 (λ a n, FindNeighborhoodContainingAttraction db a = Returned (n, None))
                       (omap (located geocode) attractions) found
  | Exited reason =>
      ∃ err rest, lookupErrors geocode db attractions = err :: rest ∧
                  reason = FatalLookup err
  | Crashed _ => False
  end.
Proof.
  induction attractions as [|a attractions IH]; intros resp ns.
  - cbn. rewrite !app_nil_r. repeat (split; [done|]). exists [].
    by rewrite app_nil_r.
  - cbn [handleAttractions]. unfold handleAttraction, lookupErrors.
    cbn [omap list_omap].
    assert (located geocode a =
            '(lat, lng) ← geocode a; Some (mkAttraction (AttractionRest a) lat lng))
      as -> by done.
    assert (unlocated geocode a = match geocode a with None => Some a | Some _ => None end)
      as -> by done.
    destruct (geocode a) as [[lat lng]|] eqn:Eg; cbn [mbind option_bind].
    + destruct (FindNeighborhood_returns (mkAttraction (AttractionRest a) lat lng))
        as (n & e & E).
      cbn [omap list_omap]. rewrite E. destruct e as [err|].
      * by eexists _, _.
      * specialize (IH (mkResponse (SuccessfulAttractions resp ++
                                      [mkAttraction (AttractionRest a) lat lng])
                                   (FailedAttractions resp)
                                   (ClosestNeighborhood resp)) (ns ++ [n])%list).
        destruct (handleAttractions _ _ _ _) as [[resp' ns']|reason|reason]; [|done..].
        destruct IH as (Hs & Hf & Hc & He & found & -> & Hfound). cbn in Hs, Hf, Hc.
        rewrite Hs, Hf, Hc, <- !app_assoc. repeat (split; [done|]).
        exists (n :: found). split; [done|]. by constructor.
    + specialize (IH (mkResponse (SuccessfulAttractions resp)
                                 (FailedAttractions resp ++ [a])
                                 (ClosestNeighborhood resp)) ns).
      destruct (handleAttractions _ _ _ _) as [[resp' ns']|reason|reason]; [|done..].
      destruct IH as (Hs & Hf & Hc & He & found & -> & Hfound). cbn in Hs, Hf, Hc.
      rewrite Hs, Hf, Hc, <- !app_assoc. repeat (split; [done|]).
      by exists found.
Qed.

Lemma located_or_unlocated (attractions : list (Attraction Rest)) :
  (length (omap (located geocode) attractions) +
   length (omap (unlocated geocode) attractions) = length attractions)%nat.
Proof.
  induction attractions as [|a attractions IH]; [done|].
  cbn [omap list_omap]. unfold located at 1, unlocated at 1.
  destruct (geocode a) as [[lat lng]|]; cbn; lia.
Qed.

(** What the handler does with the state that the loop leaves. *)
Lemma handler_cases attractions :
  match handleAttractions geocode db (mkResponse [] [] zeroNeighborhood, []) attractions with
  | Responded (resp, neighborhoods) =>
      match FindBestNeighborhood R (distance db) neighborhoods [] with
      | (Returned (closest, _), w) =>
          w = [] ∧
          handler geocode R db attractions =
          Responded (mkResponse (SuccessfulAttractions resp) (FailedAttractions resp) closest)
      | (Panicked reason, _) =>
          reason = "assignment to entry in nil map" ∧
          handler geocode R db attractions = Crashed reason
      end
  | Exited reason => handler geocode R db attractions = Exited reason
  | Crashed reason => handler geocode R db attractions = Crashed reason
  end.
Proof.
  unfold handler.
  destruct (handleAttractions _ _ _ _) as [[resp neighborhoods]|reason|reason]; [|done..].
  destruct (FindBestNeighborhood R (distance db) neighborhoods [])
    as [[[closest e]|reason] w] eqn:E.
  - apply FindBest_returned in E as (-> & -> & _). done.
  - destruct (FindBest_findLeast R (distance db) neighborhoods []) as (names & _ & E').
    rewrite E' in E.
    pose proof (findLeast_cases R (distance db) (highestOccurrence names neighborhoods) [])
      as P.
    rewrite E in P. by destruct P as [-> _].
Qed.

(** X18. A response lists every attraction once: under
    [SuccessfulAttractions], with the coordinates of the geocoder, the
    attractions that the geocoder located, and under [FailedAttractions],
    unchanged, the others, both in the order of the request. *)
Theorem handler_partition attractions resp :
  handler geocode R db attractions = Responded resp →
  SuccessfulAttractions resp = omap (located geocode) attractions ∧
  FailedAttractions resp = omap (unlocated geocode) attractions ∧
  (length (SuccessfulAttractions resp) + length (FailedAttractions resp) =
   length attractions)%nat.
Proof.
  intros Hresp. pose proof (handler_cases attractions) as Hcases.
  pose proof (handleAttractions_spec attractions (mkResponse [] [] zeroNeighborhood) [])
    as Hloop.
  destruct (handleAttractions _ _ _ _) as [[resp' neighborhoods]|reason|reason];
    [|by rewrite Hcases in Hresp..].
  destruct Hloop as (Hs & Hf & _). cbn in Hs, Hf.
  destruct (FindBestNeighborhood _ _ _ _) as [[[closest e]|reason] w].
  - destruct Hcases as [_ Hcases]. rewrite Hcases in Hresp. injection Hresp as <-.
    cbn. rewrite Hs, Hf. repeat split. apply located_or_unlocated.
  - destruct Hcases as [_ Hcases]. by rewrite Hcases in Hresp.
Qed.

(** X19. The [ClosestNeighborhood] of a response is what
    [FindBestNeighborhood] returns, with a nil error and without a call of
    the provider, for the neighborhoods that
    [FindNeighborhoodContainingAttraction] returns, each with a nil error,
    for the attractions under [SuccessfulAttractions], in their order. *)
Theorem handler_closest attractions resp :
  handler geocode R db attractions = Responded resp →
  ∃ neighborhoods,
    Forall2 (λ attraction neighborhood,
               FindNeighborhoodContainingAttraction db attraction =
               Returned (neighborhood, None))
            (SuccessfulAttractions resp) neighborhoods ∧
    FindBestNeighborhood R (distance db) neighborhoods [] =
    (Returned (ClosestNeighborhood resp, None), []).
Proof.
  intros Hresp. pose proof (handler_cases attractions) as Hcases.
  pose proof (handleAttractions_spec attractions (mkResponse [] [] zeroNeighborhood) [])
    as Hloop.
  destruct (handleAttractions _ _ _ _) as [[resp' neighborhoods]|reason|reason];
    [|by rewrite Hcases in Hresp..].
  destruct Hloop as (Hs & _ & _ & _ & found & -> & Hfound). cbn in Hs.
  exists found. rewrite app_nil_l in Hcases.
  destruct (FindBestNeighborhood _ _ _ _) as [[[closest e]|reason] w] eqn:E.
  - destruct Hcases as [-> Hcases]. rewrite Hcases in Hresp. injection Hresp as <-.
    cbn. rewrite Hs. split; [done|].
    by apply FindBest_returned in E as (-> & _).
  - destruct Hcases as [_ Hcases]. by rewrite Hcases in Hresp.
Qed.


(** X21. When every located attraction lies in no neighborhood, that is,
    when each of the lookups returns the zero value with a nil error, the
    request is answered, and the [ClosestNeighborhood] of the response is
    the zero value. *)
Theorem handler_no_neighborhood attractions :
  Forall (λ attraction,
            FindNeighborhoodContainingAttraction db attraction =
            Returned (zeroNeighborhood, None))
         (omap (located geocode) attractions) →
  handler geocode R db attractions =
  Responded (mkResponse (omap (located geocode) attractions)
                        (omap (unlocated geocode) attractions)
                        zeroNeighborhood).
Proof.
  intros Hzero. pose proof (handler_cases attractions) as Hcases.
  pose proof (handleAttractions_spec attractions (mkResponse [] [] zeroNeighborhood) [])
    as Hloop.
  destruct (handleAttractions _ _ _ _) as [[resp' neighborhoods]|reason|reason].
  - destruct Hloop as (Hs & Hf & _ & _ & found & -> & Hfound). cbn in Hs, Hf.
    rewrite app_nil_l in Hcases.
    assert (Forall (λ n, n = zeroNeighborhood) found) as Hall.
    { clear Hcases Hs Hf. induction Hfound as [|a n l found Ha Hfound IH]; [done|].
      apply Forall_cons in Hzero as [Hzero Hrest]. rewrite Hzero in Ha.
      injection Ha as <-. constructor; [done|]. by apply IH. }
    assert (FindBestNeighborhood R (distance db) found [] =
            (Returned (zeroNeighborhood, None), [])) as E.
    { destruct found as [|n rest].
      - rewrite (FindBest_with_names R (distance db) [] [] []
                   (highestOccurrence_empty R)).
        change (highestOccurrence [] []) with (@nil Neighborhood).
        rewrite (findLeast_one_name R (distance db) [] [] ""); [done|].
        by intros o ?%elem_of_nil.
      - apply Forall_cons in Hall as [-> Hall]. apply FindBest_one_name.
        intros o Ho. rewrite Forall_forall in Hall. by rewrite (Hall o Ho). }
    rewrite E in Hcases. destruct Hcases as [_ ->]. by rewrite Hs, Hf.
  - destruct Hloop as (err & rest & Herr & _). exfalso. revert Herr.
    unfold lookupErrors. clear Hcases.
    induction Hzero as [|a l Ha Hl IH]; [done|].
    cbn [omap list_omap]. by rewrite Ha.
  - done.
Qed.

End HandlerFacts.

Lemma handler_partition_witness :
  let resp := mkResponse [mkAttraction true 1%float 2%float;
                          mkAttraction true 1%float 2%float]
                         [mkAttraction false 0%float 0%float]
                         (mkNeighborhood "Downtown" "Kelowna" "BC" "Canada"
                                         1%float 2%float) in
  SuccessfulAttractions resp = omap (located known) threeAttractions ∧
  FailedAttractions resp = omap (unlocated known) threeAttractions ∧
  (length (SuccessfulAttractions resp) + length (FailedAttractions resp) =
   length threeAttractions)%nat.
Proof.
  intros resp. apply (handler_partition known ascending twoRows threeAttractions resp).
  vm_compute. reflexivity.
Defined.

Lemma handler_closest_witness :
  let resp := mkResponse [mkAttraction true 1%float 2%float;
                          mkAttraction true 1%float 2%float]
                         [mkAttraction false 0%float 0%float]
                         (mkNeighborhood "Downtown" "Kelowna" "BC" "Canada"
                                         1%float 2%float) in
  ∃ neighborhoods,
    Forall2 (λ attraction neighborhood,
               FindNeighborhoodContainingAttraction twoRows attraction =
               Returned (neighborhood, None))
            (SuccessfulAttractions resp) neighborhoods ∧
    FindBestNeighborhood ascending (distance twoRows) neighborhoods [] =
    (Returned (ClosestNeighborhood resp, None), []).
Proof.
  intros resp. apply (handler_closest known ascending twoRows threeAttractions resp).
  vm_compute. reflexivity.
Defined.

Lemma handler_no_neighborhood_witness :
  handler known ascending noRows threeAttractions =
  Responded (mkResponse (omap (located known) threeAttractions)
                        (omap (unlocated known) threeAttractions)
                        zeroNeighborhood).
Proof.
  apply (handler_no_neighborhood known ascending noRows threeAttractions).
  repeat constructor.
Defined.
